(** * topo-map-plotz: the terrain/noise/export core of [TopographicalMap]

    A shallow embedding of [src/unnamed/part_000] (the version with the
    in-file [makeNoise2D]) and of [src/main.js] (the same class, with the
    noise object supplied by three.js), and the properties of the
    specification stated over it.

    Conventions.
    - A JavaScript number is a value of an abstract carrier [num] with the
      operations of the class [Number]; the definitions below use no
      algebraic law of it, so every generic theorem holds for IEEE-754
      binary64 in particular.  [float] (Rocq's primitive binary64) is the
      instance of the program: the code is evaluated on it, and the
      properties that depend on rounding are proved on it from the
      IEEE-754 specification of its operations.
    - Typed arrays ([Uint8Array], [Float32Array], the index buffer) are
      lists; [l !! i] is a read ([None] is JavaScript's [undefined]) and
      [<[i:=v]> l] a write, which like a typed-array write does nothing
      out of range.
    - three.js and the browser are collaborators, taken as parameters
      (class [Three], the viewport size, the draws of [Math.random]). *)

From Stdlib Require Import ZArith QArith Lia Psatz Ascii.
From Stdlib Require Floats.PrimFloat Floats.FloatOps Floats.SpecFloat
  Floats.FloatAxioms.
From stdpp Require Import base list strings pretty.

Set Default Proof Using "Type".

(* ================================================================== *)
(** ** JavaScript numbers *)

Declare Scope num_scope.
Delimit Scope num_scope with num.

(** Arithmetic and comparison on numbers, and numeric literals (a literal
    is given by the rational it denotes). *)
Class Number (num : Type) : Type := {
  lit : Q -> num;
  nadd : num -> num -> num;
  nsub : num -> num -> num;
  nmul : num -> num -> num;
  ndiv : num -> num -> num;
  nneg : num -> num;
  nlt : num -> num -> bool;
}.

Notation "x + y" := (nadd x y) : num_scope.
Notation "x - y" := (nsub x y) : num_scope.
Notation "x * y" := (nmul x y) : num_scope.
Notation "x / y" := (ndiv x y) : num_scope.
Notation "- x" := (nneg x) : num_scope.
Notation "x <? y" := (nlt x y) : num_scope.

(** The integer loop counter [i] used as a number. *)
Definition of_nat {num : Type} `{Number num} (i : nat) : num :=
  lit (inject_Z (Z.of_nat i)).

(** The functions of the global [Math] object that the code calls and
    that the language defines exactly. *)
Class MathObject (num : Type) : Type := {
  Math_floor : num -> num;
  Math_sqrt : num -> num;
}.

(** [Math.sin] and [Math.cos]: approximations chosen by the
    implementation. *)
Class MathApprox (num : Type) : Type := {
  Math_sin : num -> num;
  Math_cos : num -> num;
}.

(** Conversions the runtime applies implicitly. *)
Class Coercions (num : Type) : Type := {
  (** [ToNumber(undefined)] *)
  NaN : num;
  (** the value a [Float32Array] keeps of a stored number *)
  fround : num -> num;
  (** a number used as an array subscript: [Some i] when it is the
      integer index [i], [None] for any other property key *)
  toIndex : num -> option nat;
}.

(** A number interpolated in a template literal. *)
Class NumberToString (num : Type) : Type := {
  toString : num -> string;
}.

(* ------------------------------------------------------------------ *)
(** *** Exceptions *)

Inductive JSError : Type :=
| TypeError.

Inductive result (A : Type) : Type :=
| Ok (a : A)
| Throw (e : JSError).
Arguments Ok {A} a.
Arguments Throw {A} e.

Definition bind {A B : Type} (r : result A) (k : A -> result B) : result B :=
  match r with
  | Ok a => k a
  | Throw e => Throw e
  end.

Notation "'try' x ':=' r 'in' k" := (bind r (fun x => k))
  (at level 10, x name, r at level 100, k at level 200).

(** Reading a property of a value that may be [undefined]. *)
Definition prop_of {A B : Type} (o : option A) (f : A -> B) : result B :=
  match o with
  | Some a => Ok (f a)
  | None => Throw TypeError
  end.

(* ================================================================== *)
(** ** [isTriangleVisible] *)

(** The objects pushed by [projectToSVG]. *)
Record ProjectedPoint (num : Type) : Type := mkPoint {
  px : num;
  py : num;
  pz : num;
}.
Arguments mkPoint {num} px py pz.
Arguments px {num} p.
Arguments py {num} p.
Arguments pz {num} p.

Section Visibility.
Context {num : Type} `{Number num}.
Open Scope num_scope.

(** [return a.z < 1 && b.z < 1 && c.z < 1;] on three points. *)
Definition isTriangleVisible (a b c : ProjectedPoint num) : bool :=
  (pz a <? lit 1) && (pz b <? lit 1) && (pz c <? lit 1).

(** The same expression on what [points[...]] yields: [&&] evaluates left
    to right and stops at the first [false], and reading [.z] of
    [undefined] throws. *)
Definition isTriangleVisible_js (a b c : option (ProjectedPoint num))
  : result bool :=
  try az := prop_of a pz in
  if az <? lit 1 then
    try bz := prop_of b pz in
    if bz <? lit 1 then
      try cz := prop_of c pz in
      Ok (cz <? lit 1)
    else Ok false
  else Ok false.

End Visibility.

(* ================================================================== *)
(** ** Loops *)

(** The values [i] takes in [for (let i = start; i < bound; i += step)],
    in order.  The first argument bounds the number of iterations. *)
Fixpoint loop_indices (fuel i step bound : nat) : list nat :=
  match fuel with
  | O => []
  | S fuel' =>
      if decide (i < bound)
      then i :: loop_indices fuel' (i + step) step bound
      else []
  end.

(** [bound] iterations are enough when [step] is positive (lemma
    [for_indices_complete]). *)
Definition for_indices (start step bound : nat) : list nat :=
  loop_indices bound start step bound.

(** The values of [for (let i = start; i > 0; i--)], in order. *)
Fixpoint countdown (i : nat) : list nat :=
  match i with
  | O => []
  | S i' => i :: countdown i'
  end.

(* ================================================================== *)
(** ** [makeNoise2D] (src/unnamed/part_000, lines 4-42) *)

(** What a [Uint8Array] keeps of a stored value: an integer is reduced
    modulo 256, [undefined] is stored as 0. *)
Definition toUint8 (v : option nat) : nat :=
  match v with
  | Some n => n mod 256
  | None => 0
  end.

(** The variables the returned closure captures. *)
Record Noise2D : Type := mkNoise2D {
  perm : list nat;
  permMod12 : list nat;
}.

Section MakeNoise2D.
Context {num : Type} `{Number num} `{MathObject num} `{Coercions num}.
Open Scope num_scope.

(** The argument [random]: [random k] is what its call number [k]
    (counting from 0) returns. *)
Variable random : nat -> num.

(** [const p = new Uint8Array(256); for (let i = 0; i < 256; i++) p[i] = i;] *)
Definition identity_table : list nat :=
  foldl (fun p i => <[i := toUint8 (Some i)]> p) (replicate 256 0)
        (for_indices 0 1 256).

(** [p[n]] for a number [n]. *)
Definition read_at (p : list nat) (n : num) : option nat :=
  match toIndex n with
  | Some k => p !! k
  | None => None
  end.

(** [p[n] = v] for a number [n]: a key that is no index of the array is
    ignored by a typed array. *)
Definition write_at (p : list nat) (n : num) (v : option nat) : list nat :=
  match toIndex n with
  | Some k => <[k := toUint8 v]> p
  | None => p
  end.

(** The body of the shuffle loop; iteration [i] makes call [255 - i] of
    [random]. *)
Definition shuffle_step (p : list nat) (i : nat) : list nat :=
  let n := Math_floor (of_nat (i + 1) * random (255 - i)) in
  let q := p !! i in
  let p := <[i := toUint8 (read_at p n)]> p in
  write_at p n q.

(** [for (let i = 255; i > 0; i--) { ... }] *)
Definition shuffled_table : list nat :=
  foldl shuffle_step identity_table (countdown 255).

(** The body of the last loop, on the pair [(perm, permMod12)]. *)
Definition fill_step (p : list nat) (t : list nat * list nat) (i : nat)
  : list nat * list nat :=
  let perm := <[i := toUint8 (p !! Nat.land i 255)]> t.1 in
  let permMod12 := <[i := toUint8 ((fun v => v mod 12) <$> perm !! i)]> t.2 in
  (perm, permMod12).

Definition fill_tables (p : list nat) : list nat * list nat :=
  foldl (fill_step p) (replicate 512 0, replicate 512 0) (for_indices 0 1 512).

(** [makeNoise2D(random)]: the closure, as the variables it captures. *)
Definition makeNoise2D : Noise2D :=
  let t := fill_tables shuffled_table in
  mkNoise2D t.1 t.2.

End MakeNoise2D.

Section Sample.
Context {num : Type} `{Number num} `{MathObject num} `{MathApprox num}.
Open Scope num_scope.

(** The body of the closure [(x, y) => { ... }] returned by
    [makeNoise2D], applied in the environment [env]. *)
Definition sample (env : Noise2D) (x y : num) : num :=
  let F2 := lit 0.5 * (Math_sqrt (lit 3.0) - lit 1.0) in
  let G2 := (lit 3.0 - Math_sqrt (lit 3.0)) / lit 6.0 in
  let s := (x + y) * F2 in
  let i := Math_floor (x + s) in
  let j := Math_floor (y + s) in
  let t := (i + j) * G2 in
  let X0 := i - t in
  let Y0 := j - t in
  let x0 := x - X0 in
  let y0 := y - Y0 in
  let n0 := x0 * x0 + y0 * y0 in
  n0 * (Math_sin x0 + Math_cos y0) * lit 0.5.

End Sample.

(* ================================================================== *)
(** ** The collaborators *)

(** An object with a [noise(x, y)] method: [this.noise]. *)
Class NoiseObject (T num : Type) : Type := {
  noise : T -> num -> num -> num;
}.

(** part_000: [this.noise = { noise: makeNoise2D() }]. *)
#[export] Instance Noise2D_object {num : Type}
    `{Number num} `{MathObject num} `{MathApprox num}
  : NoiseObject Noise2D num := {| noise := sample |}.

(** What the code uses of three.js: [new THREE.Vector3(x, y, z)] (whose
    arguments may be [undefined]), [applyMatrix4], [project], and the
    components of the resulting vector. *)
Class Three (num : Type) : Type := {
  Matrix4 : Type;
  Camera : Type;
  Vector3 : Type;
  Vector3_new : option num -> option num -> option num -> Vector3;
  applyMatrix4 : Vector3 -> Matrix4 -> Vector3;
  project : Vector3 -> Camera -> Vector3;
  vec_x : Vector3 -> num;
  vec_y : Vector3 -> num;
  vec_z : Vector3 -> num;
}.

(* ================================================================== *)
(** ** [TopographicalMap] *)

(** The fields of [this] the core reads or writes.  [position] is
    [terrain.geometry.attributes.position.array] (a [Float32Array], three
    entries per vertex), [needsUpdate] the flag of that attribute, [index]
    is [terrain.geometry.index.array], [matrixWorld] is
    [terrain.matrixWorld]. *)
Record TopographicalMap (T num : Type) `{Three num} : Type := mkMap {
  camera : Camera;
  noise_obj : T;
  seed : num;
  position : list num;
  needsUpdate : bool;
  index : list nat;
  matrixWorld : Matrix4;
}.
Arguments mkMap {T num _} camera noise_obj seed position needsUpdate index matrixWorld.
Arguments camera {T num _} t.
Arguments noise_obj {T num _} t.
Arguments seed {T num _} t.
Arguments position {T num _} t.
Arguments needsUpdate {T num _} t.
Arguments index {T num _} t.
Arguments matrixWorld {T num _} t.

Section App.
Context {T num : Type}.
Context `{Number num} `{Coercions num} `{Three num} `{NoiseObject T num}.
Open Scope num_scope.

Local Abbreviation App := (TopographicalMap T num).

(** A value used as a number: [undefined] becomes [NaN]. *)
Definition to_num (v : option num) : num := default NaN v.

(** [generateHeight(x, y)] (part_000 lines 116-127, main.js 65-76). *)
Definition generateHeight (this : App) (x y : num) : num :=
  let scale := lit 0.5 in
  let height := lit 0 in
  let height := height +
    noise (noise_obj this) (x * scale + seed this) (y * scale + seed this)
    * lit 1.0 in
  let height := height +
    noise (noise_obj this) (x * scale * lit 2 + seed this)
                           (y * scale * lit 2 + seed this)
    * lit 0.5 in
  let height := height +
    noise (noise_obj this) (x * scale * lit 4 + seed this)
                           (y * scale * lit 4 + seed this)
    * lit 0.25 in
  height.

(** The body of the loop of [updateTerrain] and [createTerrain]:
    [vertices[i + 2] = this.generateHeight(vertices[i], vertices[i + 1])]. *)
Definition height_step (this : App) (vertices : list num) (i : nat)
  : list num :=
  let x := vertices !! i in
  let y := vertices !! (i + 1)%nat in
  <[(i + 2)%nat := fround (generateHeight this (to_num x) (to_num y))]> vertices.

(** [updateTerrain()] (part_000 lines 228-236, main.js 177-185). *)
Definition updateTerrain (this : App) : App :=
  let vertices :=
    foldl (height_step this) (position this)
          (for_indices 0 3 (length (position this))) in
  mkMap (camera this) (noise_obj this) (seed this) vertices true
        (index this) (matrixWorld this).

(** [generateNewMap()] (part_000 lines 222-226, main.js 171-175); [r] is
    what [Math.random()] returns. *)
Definition generateNewMap (r : num) (this : App) : App :=
  let this := mkMap (camera this) (noise_obj this) (r * lit 1000)
                    (position this) (needsUpdate this) (index this)
                    (matrixWorld this) in
  updateTerrain this.

(** [projectToSVG()] (part_000 lines 169-192, main.js 124-141);
    [innerWidth] and [innerHeight] are the fields of [window]. *)
Definition project_step (innerWidth innerHeight : num) (this : App)
    (points : list (ProjectedPoint num)) (i : nat)
  : list (ProjectedPoint num) :=
  let vertices := position this in
  let vector :=
    Vector3_new (vertices !! i) (vertices !! (i + 1)%nat)
                (vertices !! (i + 2)%nat) in
  let vector := applyMatrix4 vector (matrixWorld this) in
  let vector := project vector (camera this) in
  points ++ [ mkPoint ((vec_x vector + lit 1) * innerWidth / lit 2)
                      ((- vec_y vector + lit 1) * innerHeight / lit 2)
                      (vec_z vector) ].

Definition projectToSVG (innerWidth innerHeight : num) (this : App)
  : list (ProjectedPoint num) :=
  foldl (project_step innerWidth innerHeight this) []
        (for_indices 0 3 (length (position this))).

End App.

(* ================================================================== *)
(** ** [generateSVG] and [exportSVG] *)

(** The double quote and the line break of the template literal. *)
Definition dquote : string := String (Ascii.ascii_of_nat 34) EmptyString.
Definition newline : string := String (Ascii.ascii_of_nat 10) EmptyString.

Section SvgExport.
Context {T num : Type}.
Context `{Number num} `{NumberToString num} `{Three num}.
Open Scope string_scope.

Local Abbreviation App := (TopographicalMap T num).

(** [`M${a.x},${a.y} L${b.x},${b.y} L${c.x},${c.y} Z `] for points. *)
Definition path_group (a b c : ProjectedPoint num) : string :=
  "M" ++ toString (px a) ++ "," ++ toString (py a) ++
  " L" ++ toString (px b) ++ "," ++ toString (py b) ++
  " L" ++ toString (px c) ++ "," ++ toString (py c) ++ " Z ".

(** The same template on what [points[...]] yields. *)
Definition path_group_js (a b c : option (ProjectedPoint num))
  : result string :=
  try ax := prop_of a px in
  try ay := prop_of a py in
  try bx := prop_of b px in
  try by_ := prop_of b py in
  try cx := prop_of c px in
  try cy := prop_of c py in
  Ok ("M" ++ toString ax ++ "," ++ toString ay ++
      " L" ++ toString bx ++ "," ++ toString by_ ++
      " L" ++ toString cx ++ "," ++ toString cy ++ " Z ").

(** [points[indices[k]]]: [indices[k]] is [undefined] past the end of the
    index buffer, and [points[undefined]] is [undefined]. *)
Definition point_at (points : list (ProjectedPoint num)) (indices : list nat)
    (k : nat) : option (ProjectedPoint num) :=
  match indices !! k with
  | Some v => points !! v
  | None => None
  end.

(** The body of the loop of [generateSVG], on the variable [paths]. *)
Definition svg_step (points : list (ProjectedPoint num)) (indices : list nat)
    (paths : string) (i : nat) : result string :=
  let a := point_at points indices i in
  let b := point_at points indices (i + 1) in
  let c := point_at points indices (i + 2) in
  try visible := isTriangleVisible_js a b c in
  if (visible : bool) then
    try group := path_group_js a b c in
    Ok (paths ++ group)
  else Ok paths.

(** The loop: an exception leaves it. *)
Fixpoint svg_loop (points : list (ProjectedPoint num)) (indices : list nat)
    (paths : string) (todo : list nat) : result string :=
  match todo with
  | [] => Ok paths
  | i :: todo' =>
      try paths' := svg_step points indices paths i in
      svg_loop points indices paths' todo'
  end.

(** The returned template literal. *)
Definition svg_document (width height : num) (paths : string) : string :=
  "<?xml version=" ++ dquote ++ "1.0" ++ dquote ++ " encoding=" ++ dquote ++
  "UTF-8" ++ dquote ++ "?>" ++ newline ++
  "            <svg width=" ++ dquote ++ toString width ++ dquote ++
  " height=" ++ dquote ++ toString height ++ dquote ++
  " xmlns=" ++ dquote ++ "http://www.w3.org/2000/svg" ++ dquote ++ ">" ++
  newline ++
  "                <path d=" ++ dquote ++ paths ++ dquote ++
  " stroke=" ++ dquote ++ "black" ++ dquote ++
  " fill=" ++ dquote ++ "none" ++ dquote ++
  " stroke-width=" ++ dquote ++ "0.5" ++ dquote ++ "/>" ++ newline ++
  "            </svg>".

(** [generateSVG(points)] (part_000 lines 194-216, main.js 143-165). *)
Definition generateSVG (innerWidth innerHeight : num) (this : App)
    (points : list (ProjectedPoint num)) : result string :=
  let width := innerWidth in
  let height := innerHeight in
  let indices := index this in
  try paths :=
    svg_loop points indices "" (for_indices 0 3 (length indices)) in
  Ok (svg_document width height paths).

(** [exportSVG()] up to the content handed to the [Blob] (part_000 lines
    150-155, main.js 99-104). *)
Definition exportSVG (innerWidth innerHeight : num) (this : App)
  : result string :=
  let svgPoints := projectToSVG innerWidth innerHeight this in
  generateSVG innerWidth innerHeight this svgPoints.

End SvgExport.

(* ================================================================== *)
(** ** Instances *)

(** *** IEEE-754 binary64, the numbers of JavaScript *)
Module Binary64.
Import PrimFloat FloatOps SpecFloat.

(** The double nearest to an integer. *)
Definition of_Z (z : Z) : float := SF2Prim (binary_normalize prec emax z 0 false).

(** A literal: for the literals of the source (numerator and denominator
    below 2^53) the correctly rounded quotient is the double the literal
    denotes. *)
Definition of_Q (q : Q) : float := PrimFloat.div (of_Z (Qnum q)) (of_Z (Z.pos (Qden q))).

(** The integer a finite double is, if it is one. *)
Definition to_Z (x : float) : option Z :=
  match Prim2SF x with
  | S754_zero _ => Some 0%Z
  | S754_finite s m e =>
      let z := if s then Z.neg m else Z.pos m in
      if (0 <=? e)%Z then Some (z * 2 ^ e)%Z
      else if (z mod 2 ^ (- e) =? 0)%Z then Some (z / 2 ^ (- e))%Z
      else None
  | _ => None
  end.

(** [Math.floor]: exact on the rational a finite double denotes. *)
Definition floor (x : float) : float :=
  match Prim2SF x with
  | S754_finite s m e =>
      if (e <? 0)%Z
      then of_Z ((if s then Z.neg m else Z.pos m) / 2 ^ (- e))
      else x
  | _ => x
  end.

(** [Math.fround]: round to binary32 (24 bits, [emax] 128), ties to even. *)
Definition to_binary32 (x : float) : float :=
  match Prim2SF x with
  | S754_finite s m e => SF2Prim (binary_round 24 128 s m e)
  | _ => x
  end.

(** An integer subscript. *)
Definition index_of (x : float) : option nat :=
  match to_Z x with
  | Some z => if (0 <=? z)%Z then Some (Z.to_nat z) else None
  | None => None
  end.

(** [Number::toString]: [NaN], the infinities and the integers below
    2^53 in magnitude (every one of them a double, printed with all its
    digits) are printed as JavaScript prints them; [fraction] prints the
    other doubles, the larger integers among them, whose digits
    JavaScript shortens. *)
Definition to_string (fraction : float -> string) (x : float) : string :=
  if is_nan x then "NaN"
  else if PrimFloat.eqb x infinity then "Infinity"
  else if PrimFloat.eqb x neg_infinity then "-Infinity"
  else match to_Z x with
       | Some z => if (Z.abs z <? 2 ^ 53)%Z then pretty z else fraction x
       | None => fraction x
       end.

#[export] Instance float_Number : Number float := {|
  lit := of_Q;
  nadd := PrimFloat.add;
  nsub := PrimFloat.sub;
  nmul := PrimFloat.mul;
  ndiv := PrimFloat.div;
  nneg := PrimFloat.opp;
  nlt := PrimFloat.ltb;
|}.

#[export] Instance float_Math : MathObject float := {|
  Math_floor := floor;
  Math_sqrt := PrimFloat.sqrt;
|}.

#[export] Instance float_Coercions : Coercions float := {|
  NaN := nan;
  fround := to_binary32;
  toIndex := index_of;
|}.

Definition float_ToString (fraction : float -> string)
  : NumberToString float := {| toString := to_string fraction |}.

End Binary64.

(** *** A model of the three.js collaborator

    [Vector3] of three.js r159 as its published source defines it: the
    constructor's arguments default to 0, [applyMatrix4] divides by the
    homogeneous coordinate, [project] applies the camera's
    [matrixWorldInverse] and then its [projectionMatrix].  A [Matrix4] is
    its [elements] array (column-major), given by its subscript.  It is
    used to run the export on concrete scenes; the theorems quantify over
    every instance of [Three]. *)
Module ThreeJS.
Section Model.
Context {num : Type} `{Number num}.
Open Scope num_scope.

Record Vec3 : Type := mkVec3 { x : num; y : num; z : num }.

Definition Mat4 : Type := nat -> num.

Record PerspectiveCamera : Type := mkCamera {
  matrixWorldInverse : Mat4;
  projectionMatrix : Mat4;
}.

Definition new_Vector3 (vx vy vz : option num) : Vec3 :=
  mkVec3 (default (lit 0) vx) (default (lit 0) vy) (default (lit 0) vz).

Definition Vec3_applyMatrix4 (v : Vec3) (e : Mat4) : Vec3 :=
  let w := lit 1 / (e 3%nat * x v + e 7%nat * y v + e 11%nat * z v + e 15%nat) in
  mkVec3 ((e 0%nat * x v + e 4%nat * y v + e 8%nat * z v + e 12%nat) * w)
         ((e 1%nat * x v + e 5%nat * y v + e 9%nat * z v + e 13%nat) * w)
         ((e 2%nat * x v + e 6%nat * y v + e 10%nat * z v + e 14%nat) * w).

Definition Vec3_project (v : Vec3) (c : PerspectiveCamera) : Vec3 :=
  Vec3_applyMatrix4 (Vec3_applyMatrix4 v (matrixWorldInverse c))
                    (projectionMatrix c).

Definition three : Three num := {|
  Matrix4 := Mat4;
  Camera := PerspectiveCamera;
  Vector3 := Vec3;
  Vector3_new := new_Vector3;
  applyMatrix4 := Vec3_applyMatrix4;
  project := Vec3_project;
  vec_x := x;
  vec_y := y;
  vec_z := z;
|}.

(** The matrix with the given entries, 0 elsewhere. *)
Definition matrix (entries : list num) : Mat4 :=
  fun k => default (lit 0) (entries !! k).

Definition identity : Mat4 :=
  matrix [lit 1; lit 0; lit 0; lit 0;
          lit 0; lit 1; lit 0; lit 0;
          lit 0; lit 0; lit 1; lit 0;
          lit 0; lit 0; lit 0; lit 1].

End Model.
End ThreeJS.

(* ================================================================== *)
(** * The vocabulary of the properties *)

(** The number of iterations of
    [for (let i = start; i < bound; i += step)]. *)
Definition iterations (start step bound : nat) : nat :=
  (bound - start + (step - 1)) / step.

(** The double quote and the line feed, as characters of the document. *)
Definition quotation_mark : string := String "034"%char EmptyString.
Definition line_feed : string := String "010"%char EmptyString.

(** The path string made of the given groups, in order. *)
Definition join (groups : list string) : string :=
  foldr String.append EmptyString groups.

(** A table of the shuffle: 256 entries, a permutation of [0 .. 255]. *)
Definition is_table (p : list nat) : Prop :=
  length p = 256 /\ p ≡ₚ seq 0 256.

(** A [perm] table: 512 entries in [0, 255], the first 256 a permutation
    of [0 .. 255] and the last 256 the same again, so that every value in
    [0, 255] occurs exactly twice. *)
Definition is_perm_table (t : list nat) : Prop :=
  length t = 512 /\
  Forall (fun v => v < 256) t /\
  take 256 t ≡ₚ seq 0 256 /\
  drop 256 t = take 256 t /\
  (forall v : nat, v < 256 -> count_occ Nat.eq_dec t v = 2).

Section ShuffleVocabulary.
Context {num : Type} `{Number num} `{MathObject num} `{Coercions num}.

(** The draw of iteration [i], scaled and floored as the loop does, is an
    index in [0 .. i]: what a [random()] in [0, 1) gives. *)
Definition draw_in_range (random : nat -> num) (i : nat) : Prop :=
  exists k : nat,
    toIndex (Math_floor (nmul (of_nat (i + 1)) (random (255 - i)))) = Some k /\
    k <= i.

(** The same, as a test. *)
Definition draw_in_range_b (random : nat -> num) (i : nat) : bool :=
  match toIndex (Math_floor (nmul (of_nat (i + 1)) (random (255 - i)))) with
  | Some k => bool_decide (k <= i)
  | None => false
  end.

End ShuffleVocabulary.

Section HeightVocabulary.
Context {T num : Type}.
Context `{Number num} `{Coercions num} `{Three num} `{NoiseObject T num}.
Open Scope num_scope.

Local Abbreviation App := (TopographicalMap T num).

(** The height is a function of the three samples alone. *)
Definition combine_octaves (s1 s2 s4 : num) : num :=
  lit 0 + s1 * lit 1.0 + s2 * lit 0.5 + s4 * lit 0.25.

(** The loop of [updateTerrain], on the buffer alone. *)
Definition heights (this : App) (vertices : list num) (todo : list nat)
  : list num :=
  foldl (height_step this) vertices todo.

(** How a terrain is regenerated: [updateTerrain()] alone, or
    [generateNewMap()] with the value [Math.random()] returns. *)
Inductive Regeneration : Type :=
| Update
| NewMap (r : num).

Definition regenerate (this : App) (c : Regeneration) : App :=
  match c with
  | Update => updateTerrain this
  | NewMap r => generateNewMap r this
  end.

(** The normalized device coordinates of vertex [k]: the vector built from
    entries [3k], [3k+1], [3k+2] of the position buffer, moved by the
    mesh's world matrix and projected by the camera. *)
Definition ndc (this : App) (k : nat) : Vector3 :=
  let vertices := position this in
  project
    (applyMatrix4
       (Vector3_new (vertices !! (k * 3)%nat) (vertices !! (k * 3 + 1)%nat)
                    (vertices !! (k * 3 + 2)%nat))
       (matrixWorld this))
    (camera this).

(** The viewport mapping of the specification. *)
Definition to_screen (viewportWidth viewportHeight : num) (v : Vector3)
  : ProjectedPoint num :=
  mkPoint ((vec_x v + lit 1) * viewportWidth / lit 2)
          ((- vec_y v + lit 1) * viewportHeight / lit 2)
          (vec_z v).

End HeightVocabulary.

Section EmissionVocabulary.
Context {num : Type} `{Number num} `{NumberToString num}.

(** Triangle number [k] of the mesh: the points named by entries [3k],
    [3k+1], [3k+2] of the index list. *)
Definition triangle (points : list (ProjectedPoint num)) (indices : list nat)
    (k : nat)
  : option (ProjectedPoint num) * option (ProjectedPoint num)
    * option (ProjectedPoint num) :=
  (point_at points indices (k * 3), point_at points indices (k * 3 + 1),
   point_at points indices (k * 3 + 2)).

(** The visibility filter answered [true] for triangle [k]. *)
Definition accepted (points : list (ProjectedPoint num)) (indices : list nat)
    (k : nat) : bool :=
  match triangle points indices k with
  | (a, b, c) =>
      match isTriangleVisible_js a b c with
      | Ok true => true
      | _ => false
      end
  end.

(** The closed path group of triangle [k], if it is emitted. *)
Definition outline (points : list (ProjectedPoint num)) (indices : list nat)
    (k : nat) : option string :=
  match triangle points indices k with
  | (Some a, Some b, Some c) =>
      if isTriangleVisible a b c then Some (path_group a b c) else None
  | _ => None
  end.

(** The groups of the mesh, by increasing triangle number. *)
Definition outlines (points : list (ProjectedPoint num)) (indices : list nat)
  : list string :=
  omap (outline points indices) (seq 0 (iterations 0 3 (length indices))).

(** The visibility test of triangle [k] does not throw. *)
Definition tested (points : list (ProjectedPoint num)) (indices : list nat)
    (k : nat) : Prop :=
  match triangle points indices k with
  | (a, b, c) => exists v, isTriangleVisible_js a b c = Ok v
  end.

End EmissionVocabulary.
(* ================================================================== *)
(** ** Vocabulary of binary64 rounding *)

Module IEEE.
Import SpecFloat FloatOps.
Open Scope Z_scope.

(** [k] one-bit right shifts of [M], with the round and sticky bits. *)
Definition shifted (M : Z) (k : nat) : shr_record :=
  Nat.iter k shr_1 (Build_shr_record M false false).

(** The float of a rounded mantissa and exponent. *)
Definition round_result (s : bool) (m2 e2 : Z) : spec_float :=
  match m2 with
  | Z0 => S754_zero s
  | Z.pos m => if e2 <=? emax - prec then S754_finite s m e2 else S754_infinity s
  | Z.neg _ => S754_nan
  end.

Abbreviation valid64 := (valid_binary prec emax).

(** [x] is zero or finite with [|x| * 2^K <= B]: magnitudes are scaled
    by [2^K], which makes them integers. *)
Definition magnitude_le (K B : Z) (x : spec_float) : Prop :=
  match x with
  | S754_zero _ => True
  | S754_finite _ m e => Z.pos m * 2 ^ (e + K) <= B
  | _ => False
  end.

End IEEE.

Module Binary64Vocabulary.
Import PrimFloat.

(** [x] lies in [-b, b]. *)
Definition within (b x : float) : Prop :=
  PrimFloat.leb (- b) x = true /\ PrimFloat.leb x b = true.

(** [x] lies in [-1, 1]. *)
Definition in_unit (x : float) : Prop := within 1 x.

(** [x] lies in [-1.75, 1.75]. *)
Definition in_octave_sum (x : float) : Prop := within 1.75 x.

(** [x] lies in [0, 1): what [Math.random()] returns. *)
Definition in_half_open_unit (x : float) : Prop :=
  PrimFloat.leb 0 x = true /\ PrimFloat.ltb x 1 = true.

End Binary64Vocabulary.

(* ================================================================== *)
(** ** Concrete inputs *)

(** Scenes on binary64 numbers with the three.js model, used to run the
    code.  Every number printed in them is an integer, [NaN] or an
    infinity, so the printer of fractions is never reached. *)
Module Scenes.
Import (hints) Binary64.
Import PrimFloat.

Definition printer : NumberToString float :=
  Binary64.float_ToString (fun _ => "?"%string).

Definition three : Three float := ThreeJS.three.

Definition Scene : Type := @TopographicalMap Noise2D float three.

(** A random source with values in [0, 1): call [k] returns
    [(37 k mod 101) / 101]. *)
Definition random_a (k : nat) : float :=
  lit (inject_Z (Z.of_nat ((k * 37) mod 101)) / 101).

(** Another one: call [k] returns [(11 k + 5 mod 64) / 64]. *)
Definition random_b (k : nat) : float :=
  lit (inject_Z (Z.of_nat ((k * 11 + 5) mod 64)) / 64).

Definition table_a : Noise2D := Eval vm_compute in makeNoise2D random_a.
Definition table_b : Noise2D := Eval vm_compute in makeNoise2D random_b.

(** A camera whose two matrices are the identity: [project] then leaves
    finite coordinates as they are. *)
Definition plain_camera : ThreeJS.PerspectiveCamera :=
  ThreeJS.mkCamera ThreeJS.identity ThreeJS.identity.

(** Four vertices and two triangles, [(0, 1, 2)] and [(1, 3, 2)]. *)
Definition quad (table : Noise2D) (vertices : list float) : Scene :=
  mkMap (plain_camera : @Camera float three) table (lit 7) vertices false
        [0; 1; 2; 1; 3; 2] (ThreeJS.identity : @Matrix4 float three).

Definition flat_vertices : list float :=
  [lit 0; lit 0; lit 0;   lit 1; lit 0; lit 0;
   lit 0; lit 1; lit 0;   lit 1; lit 1; lit 0].

(** The same, with [NaN] as the [x] of vertex 0. *)
Definition broken_vertices : list float :=
  [nan;   lit 0; lit 0;   lit 1; lit 0; lit 0;
   lit 0; lit 1; lit 0;   lit 1; lit 1; lit 0].

(** Projected points for the quad: the last one on the far plane. *)
Definition far_points : list (ProjectedPoint float) :=
  [mkPoint (lit 400) (lit 300) (lit 0.5); mkPoint (lit 800) (lit 300) (lit 0.5);
   mkPoint (lit 400) (lit 0) (lit 0.5);   mkPoint (lit 800) (lit 0) (lit 1.0)].

(** Projected points with [NaN] as the [x] of point 0, all in front of the
    far plane. *)
Definition broken_points : list (ProjectedPoint float) :=
  [mkPoint nan (lit 300) (lit 0.5);     mkPoint (lit 800) (lit 300) (lit 0.5);
   mkPoint (lit 400) (lit 0) (lit 0.5); mkPoint (lit 800) (lit 0) (lit 0.5)].

(** A [Math.sin] and a [Math.cos] as an implementation may approximate
    them: the Taylor polynomials of degree 7 and 6, which are accurate on
    the offsets of the closure near the origin (below 1 in magnitude). *)
Definition series_trig : MathApprox float := {|
  Math_sin x := (x * (1 - x * x / 6 * (1 - x * x / 20 * (1 - x * x / 42))))%float;
  Math_cos x := (1 - x * x / 2 * (1 - x * x / 12 * (1 - x * x / 30)))%float;
|}.

(** A noise object that returns the same sample everywhere, and the quad
    with it. *)
Definition constant_noise : NoiseObject float float :=
  {| noise c _ _ := c |}.

Definition plateau (c : float) : @TopographicalMap float float three :=
  mkMap (plain_camera : @Camera float three) c (lit 7) flat_vertices false
        [0; 1; 2; 1; 3; 2] (ThreeJS.identity : @Matrix4 float three).

End Scenes.
(* ================================================================== *)
(** * The rest of the code *)

(** ** [createTerrain] *)

(** What [new THREE.PlaneGeometry(10, 10, 100, 100)] returns, as far as
    the class reads it: the position buffer and the index buffer. *)
Record BufferGeometry (num : Type) : Type := mkGeometry {
  attributes_position : list num;
  geometry_index : list nat;
}.
Arguments mkGeometry {num} attributes_position geometry_index.
Arguments attributes_position {num} _.
Arguments geometry_index {num} _.

Section CreateTerrain.
Context {T num : Type}.
Context `{Number num} `{Coercions num} `{Three num} `{NoiseObject T num}.
Open Scope num_scope.

(** [createTerrain()] (part_000 lines 94-114, main.js 43-63), called by
    the constructor when the camera and the noise object are set.
    [geometry] is the plane three.js builds, [r] what [Math.random()]
    returns and [world] the world matrix three.js keeps for the new mesh
    (the material, the rotation and the scene only reach the class
    through it).  The loop is the one of [updateTerrain], run on the
    buffer of the geometry; the upload flag is not touched. *)
Definition createTerrain (cam : Camera) (noise_object : T) (r : num)
    (geometry : BufferGeometry num) (world : Matrix4)
  : TopographicalMap T num :=
  let this := mkMap cam noise_object (r * lit 1000)
                    (attributes_position geometry) false
                    (geometry_index geometry) world in
  let vertices :=
    foldl (height_step this) (attributes_position geometry)
          (for_indices 0 3 (length (attributes_position geometry))) in
  mkMap cam noise_object (r * lit 1000) vertices false
        (geometry_index geometry) world.

End CreateTerrain.

(* ================================================================== *)
(** ** More vocabulary *)

Section MoreEmissionVocabulary.
Context {num : Type} `{Number num}.
Open Scope num_scope.

(** The test of the triangle at offset [i] of the index list reads the
    depth of a point that is not there: its first point is missing, or
    the first is in front of the far plane and the second is missing, or
    the first two are in front of it and the third is missing. *)
Definition reads_missing_point (points : list (ProjectedPoint num))
    (indices : list nat) (i : nat) : Prop :=
  point_at points indices i = None \/
  (exists a,
     point_at points indices i = Some a /\ (pz a <? lit 1) = true /\
     point_at points indices (i + 1) = None) \/
  (exists a b,
     point_at points indices i = Some a /\ (pz a <? lit 1) = true /\
     point_at points indices (i + 1) = Some b /\ (pz b <? lit 1) = true /\
     point_at points indices (i + 2) = None).

End MoreEmissionVocabulary.

(* ================================================================== *)
(** ** More concrete inputs *)

Module MoreScenes.
Import (hints) Binary64.
Import PrimFloat Scenes.

(** A [Math.sin] and a [Math.cos] to run the closure with: the
    approximations [sin x = x] and [cos x = 1]. *)
Definition coarse_trig : MathApprox float :=
  {| Math_sin x := x; Math_cos _ := 1%float |}.

(** The random source [random_a] for its first 255 calls, [NaN] after. *)
Definition random_a_then_nan (k : nat) : float :=
  if (k <? 255)%nat then random_a k else nan.

(** The plane of the quad, as three.js would hand it over. *)
Definition quad_geometry : BufferGeometry float :=
  mkGeometry flat_vertices [0; 1; 2; 1; 3; 2].

End MoreScenes.

(* ================================================================== *)
(** * Properties *)

(** ** The loops *)

Lemma iterations_lt (i step bound : nat) :
  0 < step -> i < bound ->
  iterations i step bound = S (iterations (i + step) step bound).
Proof.
  intros Hs Hi. unfold iterations.
  destruct (decide (i + step <= bound)) as [Hle|Hgt].
  - replace (bound - i + (step - 1))
      with ((bound - (i + step) + (step - 1)) + 1 * step) by lia.
    rewrite Nat.div_add by lia. lia.
  - replace (bound - (i + step)) with 0 by lia.
    rewrite (Nat.div_small (0 + (step - 1))) by lia.
    replace (bound - i + (step - 1)) with ((bound - i - 1) + 1 * step) by lia.
    rewrite Nat.div_add by lia. rewrite Nat.div_small by lia. done.
Qed.

Lemma iterations_ge (i step bound : nat) :
  0 < step -> bound <= i -> iterations i step bound = 0.
Proof.
  intros Hs Hi. unfold iterations.
  replace (bound - i) with 0 by lia. apply Nat.div_small. lia.
Qed.

(** With [bound - i] iterations allowed the loop runs to its end: the
    indices are [i], [i + step], ... as long as they are below [bound]. *)
Lemma loop_indices_closed (fuel i step bound : nat) :
  0 < step -> bound - i <= fuel ->
  loop_indices fuel i step bound
  = (fun k => i + k * step) <$> seq 0 (iterations i step bound).
Proof.
  intros Hs. revert i. induction fuel as [|fuel IH]; intros i Hf; simpl.
  - rewrite iterations_ge by lia. done.
  - destruct (decide (i < bound)) as [Hi|Hi].
    + rewrite iterations_lt by lia. simpl. f_equal; [lia|].
      rewrite IH by lia. rewrite <- fmap_S_seq, <- list_fmap_compose.
      apply list_fmap_ext. intros ? k ?. simpl. lia.
    + rewrite iterations_ge by lia. done.
Qed.

Lemma for_indices_complete (step bound : nat) :
  0 < step ->
  for_indices 0 step bound
  = (fun k => k * step) <$> seq 0 (iterations 0 step bound).
Proof.
  intros Hs. unfold for_indices. rewrite loop_indices_closed by lia.
  apply list_fmap_ext. intros ? k ?. lia.
Qed.

Lemma for_indices_1 (bound : nat) : for_indices 0 1 bound = seq 0 bound.
Proof.
  rewrite for_indices_complete by lia. unfold iterations.
  rewrite Nat.div_1_r. replace (bound - 0 + (1 - 1)) with bound by lia.
  rewrite <- (list_fmap_id (seq 0 bound)) at 2.
  apply list_fmap_ext. intros ? k ?. simpl. lia.
Qed.

Lemma elem_of_for_indices_3 (bound i : nat) :
  i ∈ for_indices 0 3 bound <-> i < bound /\ i mod 3 = 0.
Proof.
  rewrite for_indices_complete by lia. rewrite list_elem_of_fmap.
  unfold iterations. split.
  - intros (k & -> & Hk). apply elem_of_seq in Hk.
    split; [|apply Nat.Div0.mod_mul].
    assert (Hd := Nat.Div0.div_mod (bound - 0 + (3 - 1)) 3).
    assert (Hm := Nat.mod_upper_bound (bound - 0 + (3 - 1)) 3). lia.
  - intros [Hi Hm]. exists (i / 3). split.
    + assert (Hd := Nat.Div0.div_mod i 3). lia.
    + apply elem_of_seq.
      assert (Hd := Nat.Div0.div_mod (bound - 0 + (3 - 1)) 3).
      assert (Hm' := Nat.mod_upper_bound (bound - 0 + (3 - 1)) 3).
      assert (Hd' := Nat.Div0.div_mod i 3). lia.
Qed.

(* ================================================================== *)
(** ** Visibility *)

Section VisibilityFacts.
Context {num : Type} `{Number num}.
Open Scope num_scope.

Lemma isTriangleVisible_js_Some (a b c : ProjectedPoint num) :
  isTriangleVisible_js (Some a) (Some b) (Some c) = Ok (isTriangleVisible a b c).
Proof.
  unfold isTriangleVisible_js, isTriangleVisible; simpl.
  destruct (pz a <? lit 1); simpl; [|reflexivity].
  destruct (pz b <? lit 1); reflexivity.
Qed.

Lemma isTriangleVisible_true (a b c : ProjectedPoint num) :
  isTriangleVisible a b c = true <->
  (pz a <? lit 1) = true /\ (pz b <? lit 1) = true /\ (pz c <? lit 1) = true.
Proof.
  unfold isTriangleVisible. rewrite !andb_true_iff. tauto.
Qed.

(** When the test answers [true], the three points exist. *)
Lemma isTriangleVisible_js_true (a b c : option (ProjectedPoint num)) :
  isTriangleVisible_js a b c = Ok true ->
  exists a' b' c', a = Some a' /\ b = Some b' /\ c = Some c' /\
                   isTriangleVisible a' b' c' = true.
Proof.
  unfold isTriangleVisible_js, isTriangleVisible.
  destruct a as [a'|]; simpl; [|discriminate].
  destruct (pz a' <? lit 1) eqn:Ha; [|discriminate].
  destruct b as [b'|]; simpl; [|discriminate].
  destruct (pz b' <? lit 1) eqn:Hb; [|discriminate].
  destruct c as [c'|]; simpl; [|discriminate].
  intros [= Hc]. exists a', b', c'. by rewrite Ha, Hb, Hc.
Qed.

End VisibilityFacts.

Import (hints) Binary64.

(** C2.  [isTriangleVisible(a, b, c)] is [true] exactly when each of the
    three depths [a.z], [b.z], [c.z] is strictly below 1, whatever the
    numbers are; and on binary64 the depths (0.5, 0.5, 1.0) give [false]
    and the depths (0.5, 0.5, 0.999) give [true], whatever the screen
    coordinates of the three points. *)
Theorem isTriangleVisible_depths_below_one :
  (forall (num : Type) (N : Number num) (a b c : ProjectedPoint num),
     isTriangleVisible a b c = true <->
     nlt (pz a) (lit 1) = true /\ nlt (pz b) (lit 1) = true /\
     nlt (pz c) (lit 1) = true) /\
  (forall ax ay bx by_ cx cy : PrimFloat.float,
     isTriangleVisible (mkPoint ax ay (lit 0.5)) (mkPoint bx by_ (lit 0.5))
                       (mkPoint cx cy (lit 1.0)) = false) /\
  (forall ax ay bx by_ cx cy : PrimFloat.float,
     isTriangleVisible (mkPoint ax ay (lit 0.5)) (mkPoint bx by_ (lit 0.5))
                       (mkPoint cx cy (lit 0.999)) = true).
Proof.
  split; [|split].
  - intros num N a b c. apply isTriangleVisible_true.
  - intros. unfold isTriangleVisible. simpl pz. vm_compute. reflexivity.
  - intros. unfold isTriangleVisible. simpl pz. vm_compute. reflexivity.
Qed.

(* ================================================================== *)
(** ** The height function *)

Section Height.
Context {T num : Type}.
Context `{Number num} `{Three num} `{NoiseObject T num}.
Open Scope num_scope.

Local Abbreviation App := (TopographicalMap T num).

(** C1.  [generateHeight(x, y)] is the plain sum (started from 0, no
    normalisation) of three samples of [this.noise.noise], taken at
    [(x*0.5 + seed, y*0.5 + seed)], [(x*0.5*2 + seed, y*0.5*2 + seed)] and
    [(x*0.5*4 + seed, y*0.5*4 + seed)] and multiplied by 1.0, 0.5 and 0.25;
    the noise object is consulted at these three points only. *)
Theorem generateHeight_three_octaves (this : App) (x y : num) :
  generateHeight this x y
  = lit 0
    + noise (noise_obj this)
        (x * lit 0.5 + seed this) (y * lit 0.5 + seed this) * lit 1.0
    + noise (noise_obj this)
        (x * lit 0.5 * lit 2 + seed this) (y * lit 0.5 * lit 2 + seed this)
      * lit 0.5
    + noise (noise_obj this)
        (x * lit 0.5 * lit 4 + seed this) (y * lit 0.5 * lit 4 + seed this)
      * lit 0.25
  /\ generateHeight this x y
     = combine_octaves
         (noise (noise_obj this)
            (x * lit 0.5 + seed this) (y * lit 0.5 + seed this))
         (noise (noise_obj this)
            (x * lit 0.5 * lit 2 + seed this) (y * lit 0.5 * lit 2 + seed this))
         (noise (noise_obj this)
            (x * lit 0.5 * lit 4 + seed this) (y * lit 0.5 * lit 4 + seed this)).
Proof.
  unfold generateHeight, combine_octaves. split; reflexivity.
Qed.

End Height.

(* ================================================================== *)
(** ** The noise closure *)

Section Closure.
Context {num : Type}.
Context `{Number num} `{MathObject num} `{MathApprox num} `{Coercions num}.

Lemma sample_ignores_env (env1 env2 : Noise2D) (x y : num) :
  sample env1 x y = sample env2 x y.
Proof. unfold sample. reflexivity. Qed.

(** C10.  Two closures returned by [makeNoise2D], whatever their random
    sources, give equal samples at every [(x, y)]: the closure reads
    neither [perm] nor [permMod12], so any two environments give the same
    result. *)
Theorem makeNoise2D_sample_independent_of_random
    (random1 random2 : nat -> num) (x y : num) :
  noise (makeNoise2D random1) x y = noise (makeNoise2D random2) x y /\
  (forall env : Noise2D, noise env x y = noise (makeNoise2D random1) x y).
Proof.
  split.
  - simpl. apply sample_ignores_env.
  - intros env. simpl. apply sample_ignores_env.
Qed.

End Closure.

(* ================================================================== *)
(** ** Projection *)

Section Projection.
Context {T num : Type}.
Context `{Number num} `{Three num}.
Open Scope num_scope.

Local Abbreviation App := (TopographicalMap T num).

Lemma foldl_fmap_list {A B C : Type} (f : A -> B -> A) (g : C -> B)
    (l : list C) (acc : A) :
  foldl f acc (g <$> l) = foldl (fun a c => f a (g c)) acc l.
Proof.
  revert acc. induction l as [|c l IH]; intros acc; simpl; [done|apply IH].
Qed.

Lemma foldl_push {A B : Type} (f : B -> A) (l : list B) (acc : list A) :
  foldl (fun points i => points ++ [f i]) acc l = acc ++ (f <$> l).
Proof.
  revert acc. induction l as [|i l IH]; intros acc; simpl.
  - by rewrite app_nil_r.
  - rewrite IH. by rewrite <- app_assoc.
Qed.

Lemma projectToSVG_map (W Hh : num) (this : App) :
  projectToSVG W Hh this
  = (fun k => to_screen W Hh (ndc this k))
      <$> seq 0 (iterations 0 3 (length (position this))).
Proof.
  unfold projectToSVG.
  rewrite for_indices_complete by lia. rewrite foldl_fmap_list.
  change (fun a c => project_step W Hh this a (c * 3))
    with (fun points k => points ++ [to_screen W Hh (ndc this k)]).
  by rewrite foldl_push.
Qed.

(** C3.  [projectToSVG()] pushes one point per vertex, in vertex order;
    the point of vertex [k] has [x = (ndcX + 1) * innerWidth / 2],
    [y = (-ndcY + 1) * innerHeight / 2] and [z = ndcZ], where
    [(ndcX, ndcY, ndcZ)] are the normalized device coordinates of that
    vertex. *)
Theorem projectToSVG_viewport_mapping (innerWidth innerHeight : num) (this : App) :
  length (projectToSVG innerWidth innerHeight this)
  = iterations 0 3 (length (position this)) /\
  forall k : nat,
    projectToSVG innerWidth innerHeight this !! k
    = (fun _ =>
         mkPoint ((vec_x (ndc this k) + lit 1) * innerWidth / lit 2)
                 ((- vec_y (ndc this k) + lit 1) * innerHeight / lit 2)
                 (vec_z (ndc this k)))
      <$> position this !! (k * 3)%nat.
Proof.
  rewrite projectToSVG_map. split.
  - by rewrite length_fmap, length_seq.
  - intros k. rewrite list_lookup_fmap.
    destruct (decide (k < iterations 0 3 (length (position this)))) as [Hk|Hk].
    + rewrite lookup_seq_lt by done. simpl.
      assert (k * 3 < length (position this))%nat as Hlt.
      { apply (elem_of_for_indices_3 (length (position this)) (k * 3)%nat).
        rewrite for_indices_complete by lia. apply list_elem_of_fmap.
        exists k. split; [done|]. apply elem_of_seq. lia. }
      apply lookup_lt_is_Some_2 in Hlt as [v ->]. done.
    + rewrite lookup_seq_ge by lia. simpl.
      assert (length (position this) <= k * 3)%nat as Hge.
      { destruct (decide (k * 3 < length (position this))%nat) as [Hlt|]; [|lia].
        exfalso. apply Hk.
        assert ((k * 3)%nat ∈ for_indices 0 3 (length (position this))) as Hin.
        { apply elem_of_for_indices_3. split; [done|apply Nat.Div0.mod_mul]. }
        rewrite for_indices_complete in Hin by lia.
        apply list_elem_of_fmap in Hin as (k' & Hk' & Hin).
        apply elem_of_seq in Hin. lia. }
      by rewrite (lookup_ge_None_2 _ _ Hge).
Qed.

End Projection.

(* ================================================================== *)
(** ** Regenerating the heights *)

Section Terrain.
Context {T num : Type}.
Context `{Number num} `{Coercions num} `{Three num} `{NoiseObject T num}.

Local Abbreviation App := (TopographicalMap T num).

Lemma length_heights (this : App) (todo : list nat) (vertices : list num) :
  length (heights this vertices todo) = length vertices.
Proof.
  revert vertices. induction todo as [|i todo IH]; intros vertices; simpl.
  - done.
  - unfold heights in *. simpl. rewrite IH.
    unfold height_step. by rewrite length_insert.
Qed.

(** A pass over vertex offsets (multiples of 3) leaves every entry that is
    not a [z] entry (index 2 modulo 3) as it was. *)
Lemma heights_frame (this : App) (todo : list nat) (vertices : list num)
    (j : nat) :
  Forall (fun i => i mod 3 = 0) todo -> j mod 3 <> 2 ->
  heights this vertices todo !! j = vertices !! j.
Proof.
  intros Htodo Hj. revert vertices.
  induction Htodo as [|i todo Hi _ IH]; intros vertices; [done|].
  unfold heights in *. simpl. rewrite IH.
  unfold height_step. apply list_lookup_insert_ne.
  intros <-. apply Hj. rewrite <- Nat.Div0.add_mod_idemp_l, Hi. done.
Qed.

(** After the pass, a [z] entry whose vertex offset was visited holds the
    rounded height of that vertex's [x] and [y]; the others are as before. *)
Lemma heights_z (this : App) (todo : list nat) (vertices : list num)
    (i : nat) :
  Forall (fun i => i mod 3 = 0) todo -> i mod 3 = 0 ->
  heights this vertices todo !! (i + 2)
  = if decide (i ∈ todo)
    then (fun _ => fround (generateHeight this (to_num (vertices !! i))
                                          (to_num (vertices !! (i + 1)))))
         <$> vertices !! (i + 2)
    else vertices !! (i + 2).
Proof.
  intros Htodo Hi. revert vertices.
  induction Htodo as [|i' todo Hi' Htodo IH]; intros vertices.
  { simpl. done. }
  unfold heights in *. simpl. rewrite IH. clear IH.
  assert (forall k, k mod 3 <> 2 ->
            height_step this vertices i' !! k = vertices !! k) as Hframe.
  { intros k Hk. unfold height_step. apply list_lookup_insert_ne.
    intros <-. apply Hk. rewrite <- Nat.Div0.add_mod_idemp_l, Hi'. done. }
  rewrite (Hframe i) by (rewrite Hi; done).
  rewrite (Hframe (i + 1))
    by (rewrite <- Nat.Div0.add_mod_idemp_l, Hi; done).
  destruct (decide (i = i')) as [->|Hne].
  - rewrite (decide_True (P := i' ∈ i' :: todo)) by apply list_elem_of_here.
    assert ((fun _ : num =>
               fround (generateHeight this (to_num (vertices !! i'))
                                      (to_num (vertices !! (i' + 1)))))
            <$> vertices !! (i' + 2)
            = height_step this vertices i' !! (i' + 2)) as Heq.
    { unfold height_step.
      destruct (decide (i' + 2 < length vertices)) as [Hlt|Hge].
      - rewrite list_lookup_insert_eq by done.
        apply lookup_lt_is_Some_2 in Hlt as [v ->]. done.
      - rewrite list_insert_ge by lia.
        by rewrite (lookup_ge_None_2 vertices (i' + 2)) by lia. }
    destruct (decide (i' ∈ todo)).
    + rewrite <- Heq. by destruct (vertices !! (i' + 2)).
    + by rewrite <- Heq.
  - assert (height_step this vertices i' !! (i + 2) = vertices !! (i + 2))
      as ->.
    { unfold height_step. apply list_lookup_insert_ne. lia. }
    destruct (decide (i ∈ todo)) as [Hin|Hnin].
    + rewrite decide_True; [done|]. by apply list_elem_of_further.
    + rewrite decide_False; [done|].
      intros [?|?]%elem_of_cons; done.
Qed.

Lemma for_indices_3_mod (n : nat) :
  Forall (fun i => i mod 3 = 0) (for_indices 0 3 n).
Proof.
  apply Forall_forall. intros i Hi. by apply elem_of_for_indices_3 in Hi as [_ ?].
Qed.

Lemma updateTerrain_frame (this : App) :
  index (updateTerrain this) = index this /\
  camera (updateTerrain this) = camera this /\
  matrixWorld (updateTerrain this) = matrixWorld this /\
  noise_obj (updateTerrain this) = noise_obj this /\
  seed (updateTerrain this) = seed this /\
  length (position (updateTerrain this)) = length (position this) /\
  (forall j, j mod 3 <> 2 ->
     position (updateTerrain this) !! j = position this !! j).
Proof.
  unfold updateTerrain; simpl. repeat split; try done.
  - apply (length_heights this).
  - intros j Hj. apply (heights_frame this); [apply for_indices_3_mod|done].
Qed.

Lemma generateNewMap_frame (r : num) (this : App) :
  index (generateNewMap r this) = index this /\
  camera (generateNewMap r this) = camera this /\
  matrixWorld (generateNewMap r this) = matrixWorld this /\
  noise_obj (generateNewMap r this) = noise_obj this /\
  length (position (generateNewMap r this)) = length (position this) /\
  (forall j, j mod 3 <> 2 ->
     position (generateNewMap r this) !! j = position this !! j).
Proof.
  unfold generateNewMap.
  destruct (updateTerrain_frame
              (mkMap (camera this) (noise_obj this) (nmul r (lit 1000))
                     (position this) (needsUpdate this) (index this)
                     (matrixWorld this)))
    as (Hi & Hc & Hm & Hn & _ & Hl & Hp).
  simpl in *. repeat split; done.
Qed.

(** C5.  After any sequence of regenerations (each [updateTerrain()] or
    [generateNewMap()]) the triangle index list is the one before, the
    position buffer has its length, and the [x] and [y] of every vertex
    (entries [3k] and [3k+1]) are the ones before: only [z] entries
    change. *)
Theorem regeneration_preserves_topology (cs : list Regeneration) (this : App) :
  index (foldl regenerate this cs) = index this /\
  length (position (foldl regenerate this cs)) = length (position this) /\
  (forall k : nat,
     position (foldl regenerate this cs) !! (k * 3) = position this !! (k * 3) /\
     position (foldl regenerate this cs) !! (k * 3 + 1)
     = position this !! (k * 3 + 1)).
Proof.
  revert this. induction cs as [|c cs IH]; intros this; simpl; [done|].
  destruct (IH (regenerate this c)) as (Hi & Hl & Hp).
  assert (index (regenerate this c) = index this /\
          length (position (regenerate this c)) = length (position this) /\
          (forall j, j mod 3 <> 2 ->
             position (regenerate this c) !! j = position this !! j))
    as (Hi' & Hl' & Hp').
  { destruct c as [|r]; simpl.
    - destruct (updateTerrain_frame this) as (? & _ & _ & _ & _ & ? & ?). done.
    - destruct (generateNewMap_frame r this) as (? & _ & _ & _ & ? & ?). done. }
  rewrite Hi, Hl, Hi', Hl'. repeat split; try done.
  - destruct (Hp k) as [-> _]. apply Hp'. by rewrite Nat.Div0.mod_mul.
  - destruct (Hp k) as [_ ->]. apply Hp'.
    rewrite Nat.add_comm, Nat.Div0.mod_add. done.
Qed.

Lemma updateTerrain_heights (this : App) (k : nat) :
  position (updateTerrain this) !! (k * 3 + 2)
  = (fun _ => fround (generateHeight this
                        (to_num (position this !! (k * 3)))
                        (to_num (position this !! (k * 3 + 1)))))
    <$> position this !! (k * 3 + 2).
Proof.
  unfold updateTerrain; simpl.
  change (foldl (height_step this) (position this)
                (for_indices 0 3 (length (position this))))
    with (heights this (position this)
                  (for_indices 0 3 (length (position this)))).
  rewrite heights_z by (apply for_indices_3_mod || apply Nat.Div0.mod_mul).
  case_decide as Hin; [done|].
  rewrite elem_of_for_indices_3 in Hin.
  rewrite Nat.Div0.mod_mul in Hin.
  rewrite (lookup_ge_None_2 (position this) (k * 3 + 2)); [done|].
  destruct (decide (k * 3 < length (position this))); [|lia].
  exfalso. by apply Hin.
Qed.

(** C6 as the code has it.  [generateNewMap()] sets the seed to
    [Math.random() * 1000], keeps the noise object it has (no table is
    rebuilt), recomputes the [z] of every vertex as the rounded
    [generateHeight] of its [x] and [y] under the new seed, marks the
    buffer for upload, and leaves the [x] and [y] of every vertex, the
    index list, the camera and the world matrix as they were. *)
Theorem generateNewMap_reseeds_and_repopulates (r : num) (this : App) :
  seed (generateNewMap r this) = nmul r (lit 1000) /\
  noise_obj (generateNewMap r this) = noise_obj this /\
  index (generateNewMap r this) = index this /\
  camera (generateNewMap r this) = camera this /\
  matrixWorld (generateNewMap r this) = matrixWorld this /\
  needsUpdate (generateNewMap r this) = true /\
  length (position (generateNewMap r this)) = length (position this) /\
  (forall k : nat,
     position (generateNewMap r this) !! (k * 3) = position this !! (k * 3) /\
     position (generateNewMap r this) !! (k * 3 + 1)
     = position this !! (k * 3 + 1) /\
     position (generateNewMap r this) !! (k * 3 + 2)
     = (fun _ => fround (generateHeight (generateNewMap r this)
                           (to_num (position this !! (k * 3)))
                           (to_num (position this !! (k * 3 + 1)))))
       <$> position this !! (k * 3 + 2)).
Proof.
  destruct (generateNewMap_frame r this) as (Hi & Hc & Hm & Hn & Hl & Hp).
  assert (seed (generateNewMap r this) = nmul r (lit 1000)) as Hs by done.
  repeat split; try done.
  - apply Hp. by rewrite Nat.Div0.mod_mul.
  - apply Hp. by rewrite Nat.add_comm, Nat.Div0.mod_add.
  - unfold generateNewMap at 1. rewrite updateTerrain_heights. simpl.
    destruct (position this !! (k * 3 + 2)); [|done]. simpl. do 2 f_equal.
Qed.

End Terrain.

(* ================================================================== *)
(** ** The permutation table *)

Lemma elem_of_countdown (n i : nat) : i ∈ countdown n <-> 1 <= i <= n.
Proof.
  induction n as [|n IH]; simpl.
  - rewrite elem_of_nil. lia.
  - rewrite elem_of_cons, IH. lia.
Qed.

Lemma identity_table_seq : identity_table = seq 0 256.
Proof. vm_compute. reflexivity. Qed.

(** Writing [g i] at every index [i] of [todo], in turn. *)
Lemma foldl_insert_lookup {A : Type} (g : nat -> A) (todo : list nat)
    (a : list A) (j : nat) :
  foldl (fun a i => <[i := g i]> a) a todo !! j
  = if decide (j ∈ todo) then (fun _ => g j) <$> a !! j else a !! j.
Proof.
  revert a. induction todo as [|i todo IH]; intros a; simpl; [done|].
  rewrite IH. destruct (decide (j = i)) as [->|Hne].
  - rewrite (decide_True (P := i ∈ i :: todo)) by apply list_elem_of_here.
    destruct (decide (i < length a)) as [Hlt|Hge].
    + rewrite list_lookup_insert_eq by done.
      apply lookup_lt_is_Some_2 in Hlt as [v ->]. by case_decide.
    + rewrite list_insert_ge by lia.
      rewrite (lookup_ge_None_2 a i) by lia. by case_decide.
  - rewrite list_lookup_insert_ne by done.
    destruct (decide (j ∈ todo)) as [Hin|Hnin].
    + rewrite decide_True; [done|]. by apply list_elem_of_further.
    + rewrite decide_False; [done|].
      intros [?|?]%elem_of_cons; done.
Qed.

Lemma foldl_insert_seq {A : Type} (g : nat -> A) (a : list A) :
  foldl (fun a i => <[i := g i]> a) a (seq 0 (length a))
  = g <$> seq 0 (length a).
Proof.
  apply list_eq. intros j. rewrite foldl_insert_lookup, list_lookup_fmap.
  destruct (decide (j < length a)) as [Hlt|Hge].
  - rewrite decide_True by (apply elem_of_seq; lia).
    rewrite lookup_seq_lt by done.
    apply lookup_lt_is_Some_2 in Hlt as [v ->]. done.
  - rewrite decide_False by (rewrite elem_of_seq; lia).
    rewrite lookup_seq_ge by lia. by rewrite lookup_ge_None_2 by lia.
Qed.

Lemma fill_tables_perm (p : list nat) :
  (fill_tables p).1
  = (fun i => toUint8 (p !! Nat.land i 255)) <$> seq 0 512.
Proof.
  unfold fill_tables. rewrite for_indices_1.
  assert (forall todo t,
            (foldl (fill_step p) t todo).1
            = foldl (fun a i => <[i := toUint8 (p !! Nat.land i 255)]> a)
                    t.1 todo) as Hfst.
  { induction todo as [|i todo IH]; intros t; simpl; [done|]. by rewrite IH. }
  rewrite Hfst.
  change ((replicate 512 0, replicate 512 0).1) with (replicate 512 0).
  pose proof (foldl_insert_seq
                (fun i => toUint8 (p !! Nat.land i 255)) (replicate 512 0))
    as Hfill.
  by rewrite length_replicate in Hfill.
Qed.

Lemma fmap_Some_eq_fmap {A B : Type} (f : A -> B) (a : A) :
  f <$> Some a = Some (f a).
Proof. done. Qed.

Lemma fmap_None_eq_fmap {A B : Type} (f : A -> B) :
  f <$> (None : option A) = None.
Proof. done. Qed.

Lemma land_255 (i : nat) : Nat.land i 255 = i mod 256.
Proof. apply (Nat.land_ones i 8). Qed.

Lemma doubled_table (p : list nat) :
  length p = 256 -> Forall (fun v => v < 256) p ->
  (fun i => toUint8 (p !! Nat.land i 255)) <$> seq 0 512 = p ++ p.
Proof.
  intros Hlen Hp. apply list_eq. intros j.
  rewrite list_lookup_fmap.
  assert (forall k, k < 256 -> Some (toUint8 (p !! k)) = p !! k) as Hk.
  { intros k Hlt. destruct (lookup_lt_is_Some_2 p k) as [v Hv]; [lia|].
    rewrite Hv. unfold toUint8. f_equal. apply Nat.mod_small.
    by apply (Forall_lookup_1 _ _ _ _ Hp Hv). }
  destruct (decide (j < 512)) as [Hlt|Hge].
  - rewrite lookup_seq_lt by done. change (0 + j) with j.
    rewrite fmap_Some_eq_fmap, land_255.
    rewrite Hk by (apply Nat.mod_upper_bound; lia).
    destruct (decide (j < 256)) as [Hlo|Hhi].
    + rewrite Nat.mod_small by done. by rewrite lookup_app_l by lia.
    + rewrite lookup_app_r by lia. f_equal. rewrite Hlen.
      replace j with ((j - 256) + 1 * 256) at 1 by lia.
      rewrite Nat.Div0.mod_add. apply Nat.mod_small. lia.
  - rewrite lookup_seq_ge by lia. rewrite fmap_None_eq_fmap.
    rewrite lookup_ge_None_2; [done|]. rewrite length_app. lia.
Qed.

Section Shuffle.
Context {num : Type} `{Number num} `{MathObject num} `{Coercions num}.
Variable random : nat -> num.

Lemma draws_checked :
  forallb (draw_in_range_b random) (countdown 255) = true ->
  forall i : nat, 1 <= i <= 255 -> draw_in_range random i.
Proof.
  intros Hall i Hi. rewrite forallb_forall in Hall.
  specialize (Hall i). unfold draw_in_range_b, draw_in_range in *.
  destruct (toIndex _) as [k|].
  - exists k. split; [done|].
    assert (bool_decide (k <= i) = true) as Hb.
    { apply Hall. apply list_elem_of_In, elem_of_countdown. done. }
    by apply bool_decide_eq_true in Hb.
  - discriminate Hall. apply list_elem_of_In, elem_of_countdown. done.
Qed.

Lemma is_table_bound (p : list nat) (k v : nat) :
  is_table p -> p !! k = Some v -> v < 256.
Proof.
  intros [_ Hp] Hk. apply list_elem_of_lookup_2 in Hk.
  rewrite Hp in Hk. apply elem_of_seq in Hk. lia.
Qed.

Lemma shuffle_step_table (p : list nat) (i : nat) :
  is_table p -> 1 <= i <= 255 -> draw_in_range random i ->
  is_table (shuffle_step random p i).
Proof.
  intros Hp Hi (k & Hk & Hki). unfold shuffle_step, read_at, write_at.
  rewrite Hk. destruct Hp as [Hlen Hperm].
  destruct (lookup_lt_is_Some_2 p i) as [xi Hxi]; [lia|].
  destruct (lookup_lt_is_Some_2 p k) as [xk Hxk]; [lia|].
  rewrite Hxi, Hxk. unfold toUint8.
  rewrite !Nat.mod_small by (eapply is_table_bound; [split|]; eauto).
  split.
  - by rewrite !length_insert.
  - etrans; [|exact Hperm]. by apply Permutation_insert_swap.
Qed.

Lemma shuffled_table_is_table :
  (forall i : nat, 1 <= i <= 255 -> draw_in_range random i) ->
  is_table (shuffled_table random).
Proof.
  intros Hdraws. unfold shuffled_table.
  assert (forall todo p,
            (forall i, i ∈ todo -> 1 <= i <= 255) -> is_table p ->
            is_table (foldl (shuffle_step random) p todo)) as Hloop.
  { induction todo as [|i todo IH]; intros p Htodo Hp; simpl; [done|].
    apply IH.
    - intros j Hj. apply Htodo. by apply list_elem_of_further.
    - apply shuffle_step_table; [done| |].
      + apply Htodo, list_elem_of_here.
      + apply Hdraws, Htodo, list_elem_of_here. }
  apply Hloop.
  - intros i Hi. by apply elem_of_countdown.
  - rewrite identity_table_seq. split; [by rewrite length_seq|done].
Qed.

(** When every draw of the random source, scaled by [i + 1] and floored,
    is an index in [0 .. i], the shuffle only swaps entries and [perm] is
    the shuffled table twice. *)
Lemma perm_table_of_draws :
  (forall i : nat, 1 <= i <= 255 -> draw_in_range random i) ->
  is_perm_table (perm (makeNoise2D random)).
Proof.
  intros Hdraws. unfold is_perm_table.
  destruct (shuffled_table_is_table Hdraws) as [Hlen Hperm].
  assert (Forall (fun v => v < 256) (shuffled_table random)) as Hbound.
  { apply Forall_forall. intros v Hv. rewrite Hperm in Hv.
    apply elem_of_seq in Hv. lia. }
  assert (perm (makeNoise2D random)
          = shuffled_table random ++ shuffled_table random) as ->.
  { unfold makeNoise2D. cbn [perm]. rewrite fill_tables_perm.
    by apply doubled_table. }
  split; [|split; [|split; [|split]]].
  - rewrite length_app. lia.
  - by apply Forall_app.
  - rewrite take_app_length' by done. done.
  - rewrite drop_app_length' by done. by rewrite take_app_length' by done.
  - intros v Hv. rewrite count_occ_app.
    rewrite (Permutation_count_occ Nat.eq_dec) in Hperm. rewrite Hperm.
    assert (count_occ Nat.eq_dec (seq 0 256) v = 1) as ->; [|done].
    apply NoDup_count_occ'; [apply List.seq_NoDup|]. apply in_seq. lia.
Qed.

End Shuffle.

(* ================================================================== *)
(** ** Emission *)

Lemma string_app_cons (c : Ascii.ascii) (s1 s2 : string) :
  (String c s1 ++ s2)%string = String c (s1 ++ s2)%string.
Proof. reflexivity. Qed.

Lemma string_app_assoc (s1 s2 s3 : string) :
  ((s1 ++ s2) ++ s3)%string = (s1 ++ (s2 ++ s3))%string.
Proof.
  induction s1 as [|c s1 IH]; [reflexivity|].
  rewrite !string_app_cons. f_equal. exact IH.
Qed.

Lemma string_app_nil_r (s : string) : (s ++ "")%string = s.
Proof.
  induction s as [|c s IH]; [reflexivity|].
  rewrite string_app_cons. f_equal. exact IH.
Qed.

Section Emission.
Context {T num : Type}.
Context `{Number num} `{NumberToString num} `{Three num}.

Local Abbreviation App := (TopographicalMap T num).

Lemma path_group_js_Some (a b c : ProjectedPoint num) :
  path_group_js (Some a) (Some b) (Some c) = Ok (path_group a b c).
Proof. done. Qed.

Lemma outline_accepted (points : list (ProjectedPoint num))
    (indices : list nat) (k : nat) :
  is_Some (outline points indices k) <-> accepted points indices k = true.
Proof.
  unfold outline, accepted, triangle.
  destruct (point_at points indices (k * 3)) as [a|] eqn:Ha;
    [|split; [by intros [? ?]|done]].
  destruct (point_at points indices (k * 3 + 1)) as [b|] eqn:Hb.
  2:{ split; [by intros [? ?]|]. unfold isTriangleVisible_js. simpl.
      by destruct (nlt (pz a) (lit 1)). }
  destruct (point_at points indices (k * 3 + 2)) as [c|] eqn:Hc.
  2:{ split; [by intros [? ?]|]. unfold isTriangleVisible_js. simpl.
      destruct (nlt (pz a) (lit 1)); [|done].
      by destruct (nlt (pz b) (lit 1)). }
  rewrite isTriangleVisible_js_Some.
  destruct (isTriangleVisible a b c); split; try done; by intros [? ?].
Qed.

(** One turn of the loop on triangle [k]: it throws when the visibility
    test does, and otherwise appends the group of the triangle if it has
    one. *)
Lemma svg_step_outline (points : list (ProjectedPoint num))
    (indices : list nat) (paths : string) (k : nat) :
  svg_step points indices paths (k * 3)
  = match triangle points indices k with
    | (a, b, c) =>
        match isTriangleVisible_js a b c with
        | Ok _ =>
            Ok (paths ++ default EmptyString (outline points indices k))%string
        | Throw e => Throw e
        end
    end.
Proof.
  unfold svg_step, outline, triangle.
  destruct (isTriangleVisible_js _ _ _) as [[|]|e] eqn:Hv; simpl; [| |done].
  - apply isTriangleVisible_js_true in Hv as (a & b & c & -> & -> & -> & Hv).
    rewrite path_group_js_Some, Hv. done.
  - destruct (point_at points indices (k * 3)) as [a|]; [|by rewrite string_app_nil_r].
    destruct (point_at points indices (k * 3 + 1)) as [b|];
      [|by rewrite string_app_nil_r].
    destruct (point_at points indices (k * 3 + 2)) as [c|];
      [|by rewrite string_app_nil_r].
    rewrite isTriangleVisible_js_Some in Hv. injection Hv as ->.
    by rewrite string_app_nil_r.
Qed.

Lemma svg_loop_Ok (points : list (ProjectedPoint num)) (indices : list nat)
    (ks : list nat) (paths paths' : string) :
  svg_loop points indices paths ((fun k => k * 3) <$> ks) = Ok paths' ->
  paths' = (paths ++ join (omap (outline points indices) ks))%string.
Proof.
  revert paths. induction ks as [|k ks IH]; intros paths; simpl.
  - intros [= <-]. by rewrite string_app_nil_r.
  - rewrite svg_step_outline. unfold triangle.
    destruct (isTriangleVisible_js _ _ _) as [v|e]; simpl; [|done].
    intros Hloop. apply IH in Hloop as ->.
    rewrite string_app_assoc. by destruct (outline points indices k).
Qed.

Lemma svg_loop_total (points : list (ProjectedPoint num)) (indices : list nat)
    (ks : list nat) (paths : string) :
  Forall (tested points indices) ks ->
  svg_loop points indices paths ((fun k => k * 3) <$> ks)
  = Ok (paths ++ join (omap (outline points indices) ks))%string.
Proof.
  intros Hks. revert paths.
  induction Hks as [|k ks Hk _ IH]; intros paths; simpl.
  - by rewrite string_app_nil_r.
  - rewrite svg_step_outline. unfold tested, triangle in *.
    destruct Hk as [v ->]. simpl. rewrite IH.
    rewrite string_app_assoc. by destruct (outline points indices k).
Qed.

Lemma length_outlines_filter (points : list (ProjectedPoint num))
    (indices : list nat) (ks : list nat) :
  length (omap (outline points indices) ks)
  = length (filter (fun k => accepted points indices k = true) ks).
Proof.
  induction ks as [|k ks IH]; simpl; [done|].
  rewrite filter_cons.
  destruct (outline_accepted points indices k) as [Hto Hfrom].
  destruct (outline points indices k) as [g|] eqn:Hg.
  - rewrite decide_True by (apply Hto; eauto). simpl. f_equal. exact IH.
  - rewrite decide_False; [exact IH|].
    intros Hacc. apply Hfrom in Hacc as [? ?]. done.
Qed.

(** In a mesh whose index list is made of whole triangles over existing
    points, no visibility test throws. *)
Lemma well_formed_tested (points : list (ProjectedPoint num))
    (indices : list nat) :
  Forall (fun v => v < length points) indices ->
  length indices mod 3 = 0 ->
  Forall (tested points indices) (seq 0 (iterations 0 3 (length indices))).
Proof.
  intros Hidx Hmod. apply Forall_forall. intros k Hk.
  apply elem_of_seq in Hk.
  assert (k * 3 + 2 < length indices) as Hlt.
  { unfold iterations in Hk.
    assert (Hd := Nat.Div0.div_mod (length indices - 0 + (3 - 1)) 3).
    assert (Hd' := Nat.Div0.div_mod (length indices) 3).
    assert (Hm := Nat.mod_upper_bound (length indices - 0 + (3 - 1)) 3).
    lia. }
  assert (forall j, j < length indices -> is_Some (point_at points indices j))
    as Hpt.
  { intros j Hj. unfold point_at.
    destruct (lookup_lt_is_Some_2 indices j Hj) as [v Hv]. rewrite Hv.
    apply lookup_lt_is_Some_2. by apply (Forall_lookup_1 _ _ _ _ Hidx Hv). }
  unfold tested, triangle.
  destruct (Hpt (k * 3)) as [a ->]; [lia|].
  destruct (Hpt (k * 3 + 1)) as [b ->]; [lia|].
  destruct (Hpt (k * 3 + 2)) as [c ->]; [lia|].
  rewrite isTriangleVisible_js_Some. eauto.
Qed.

Lemma generateSVG_well_formed (innerWidth innerHeight : num) (this : App)
    (points : list (ProjectedPoint num)) :
  Forall (fun v => v < length points) (index this) ->
  length (index this) mod 3 = 0 ->
  generateSVG innerWidth innerHeight this points
  = Ok (svg_document innerWidth innerHeight
          (join (outlines points (index this)))).
Proof.
  intros Hidx Hmod. unfold generateSVG, outlines.
  rewrite for_indices_complete by lia.
  rewrite svg_loop_total by by apply well_formed_tested. done.
Qed.

(** The text of a group that is emitted: the template of the source on
    the three points of the triangle, which pass the test. *)
Lemma outline_text (points : list (ProjectedPoint num)) (indices : list nat)
    (k : nat) (group : string) :
  outline points indices k = Some group ->
  exists a b c : ProjectedPoint num,
    triangle points indices k = (Some a, Some b, Some c) /\
    isTriangleVisible a b c = true /\
    group = ("M" ++ toString (px a) ++ "," ++ toString (py a) ++
             " L" ++ toString (px b) ++ "," ++ toString (py b) ++
             " L" ++ toString (px c) ++ "," ++ toString (py c) ++ " Z ")%string.
Proof.
  unfold outline. destruct (triangle points indices k) as [[[a|] [b|]] [c|]];
    try done.
  destruct (isTriangleVisible a b c) eqn:Hv; [|done].
  intros [= <-]. by exists a, b, c.
Qed.

(** The text of the document around a path string. *)
Lemma svg_document_text (width height : num) (paths : string) :
  svg_document width height paths
  = ("<?xml version=" ++ quotation_mark ++ "1.0" ++ quotation_mark ++
     " encoding=" ++ quotation_mark ++ "UTF-8" ++ quotation_mark ++ "?>" ++
     line_feed ++
     "            <svg width=" ++ quotation_mark ++ toString width ++
     quotation_mark ++ " height=" ++ quotation_mark ++ toString height ++
     quotation_mark ++ " xmlns=" ++ quotation_mark ++
     "http://www.w3.org/2000/svg" ++ quotation_mark ++ ">" ++ line_feed ++
     "                <path d=" ++ quotation_mark ++ paths ++ quotation_mark ++
     " stroke=" ++ quotation_mark ++ "black" ++ quotation_mark ++
     " fill=" ++ quotation_mark ++ "none" ++ quotation_mark ++
     " stroke-width=" ++ quotation_mark ++ "0.5" ++ quotation_mark ++ "/>" ++
     line_feed ++ "            </svg>")%string.
Proof. reflexivity. Qed.

(** C4.  Whenever [generateSVG(points)] returns, its document is, character
    for character, the XML declaration, the [svg] element with the width
    and the height, and one [path] element whose [d] attribute is the
    path string made of exactly the closed groups
    [M ax,ay L bx,by L cx,cy Z ] of the triangles the visibility test
    accepted, one group per accepted triangle, by increasing triangle
    number (no reordering), each group the template on the three points
    of its triangle; the number of groups is the number of accepted
    triangles and is at most the number of triangles of the index list.
    When the index list is made of whole triangles over existing points,
    [generateSVG] does return, and the number of triangles is a third of
    the length of the index list. *)
Theorem generateSVG_one_group_per_visible_triangle
    (innerWidth innerHeight : num) (this : App)
    (points : list (ProjectedPoint num)) :
  (forall doc : string,
     generateSVG innerWidth innerHeight this points = Ok doc ->
     doc = svg_document innerWidth innerHeight
             (join (outlines points (index this))) /\
     doc = ("<?xml version=" ++ quotation_mark ++ "1.0" ++ quotation_mark ++
            " encoding=" ++ quotation_mark ++ "UTF-8" ++ quotation_mark ++
            "?>" ++ line_feed ++
            "            <svg width=" ++ quotation_mark ++
            toString innerWidth ++ quotation_mark ++
            " height=" ++ quotation_mark ++ toString innerHeight ++
            quotation_mark ++ " xmlns=" ++ quotation_mark ++
            "http://www.w3.org/2000/svg" ++ quotation_mark ++ ">" ++
            line_feed ++
            "                <path d=" ++ quotation_mark ++
            join (outlines points (index this)) ++ quotation_mark ++
            " stroke=" ++ quotation_mark ++ "black" ++ quotation_mark ++
            " fill=" ++ quotation_mark ++ "none" ++ quotation_mark ++
            " stroke-width=" ++ quotation_mark ++ "0.5" ++ quotation_mark ++
            "/>" ++ line_feed ++ "            </svg>")%string) /\
  (forall (k : nat) (group : string),
     outlines points (index this) !! k = Some group ->
     exists (t : nat) (a b c : ProjectedPoint num),
       t < iterations 0 3 (length (index this)) /\
       triangle points (index this) t = (Some a, Some b, Some c) /\
       isTriangleVisible a b c = true /\
       group = ("M" ++ toString (px a) ++ "," ++ toString (py a) ++
                " L" ++ toString (px b) ++ "," ++ toString (py b) ++
                " L" ++ toString (px c) ++ "," ++ toString (py c) ++
                " Z ")%string) /\
  length (outlines points (index this))
  = length (filter (fun k => accepted points (index this) k = true)
                   (seq 0 (iterations 0 3 (length (index this))))) /\
  length (outlines points (index this))
  <= iterations 0 3 (length (index this)) /\
  (Forall (fun v => v < length points) (index this) ->
   length (index this) mod 3 = 0 ->
   generateSVG innerWidth innerHeight this points
   = Ok (svg_document innerWidth innerHeight
           (join (outlines points (index this)))) /\
   iterations 0 3 (length (index this)) = length (index this) / 3).
Proof.
  split; [|split; [|split; [|split]]].
  - unfold generateSVG, outlines.
    rewrite for_indices_complete by lia.
    intros doc Hdoc.
    destruct (svg_loop points (index this) "" _) as [paths|e] eqn:Hloop;
      simpl in Hdoc; [|done].
    apply svg_loop_Ok in Hloop. injection Hdoc as <-. rewrite Hloop.
    split; [done|]. apply svg_document_text.
  - intros k group Hk. unfold outlines in Hk.
    apply list_elem_of_lookup_2 in Hk.
    apply list_elem_of_omap in Hk as (t & Ht & Hout).
    apply elem_of_seq in Ht.
    destruct (outline_text _ _ _ _ Hout) as (a & b & c & ? & ? & ?).
    exists t, a, b, c. split; [lia|done].
  - apply length_outlines_filter.
  - unfold outlines. rewrite length_outlines_filter.
    etrans; [apply length_filter|]. by rewrite length_seq.
  - intros Hidx Hmod. split.
    + by apply generateSVG_well_formed.
    + unfold iterations.
      assert (Hd := Nat.Div0.div_mod (length (index this) - 0 + (3 - 1)) 3).
      assert (Hd' := Nat.Div0.div_mod (length (index this)) 3).
      assert (Hm := Nat.mod_upper_bound (length (index this) - 0 + (3 - 1)) 3).
      lia.
Qed.

(** The export of a mesh whose index list is made of whole triangles over
    its vertices returns a document, whatever the numbers are. *)
Lemma exportSVG_total (innerWidth innerHeight : num) (this : App) :
  Forall (fun v => v < iterations 0 3 (length (position this))) (index this) ->
  length (index this) mod 3 = 0 ->
  exportSVG innerWidth innerHeight this
  = Ok (svg_document innerWidth innerHeight
          (join (outlines (projectToSVG innerWidth innerHeight this)
                          (index this)))).
Proof.
  intros Hidx Hmod. unfold exportSVG.
  apply generateSVG_well_formed; [|done].
  by rewrite projectToSVG_map, length_fmap, length_seq.
Qed.

End Emission.

(* ================================================================== *)
(** ** The code on concrete inputs *)

Section Runs.
Import (hints) Binary64.
Import Scenes.
Existing Instance Scenes.printer.
Existing Instance Scenes.three.

Example run_export_flat :
  exportSVG (lit 800) (lit 600) (quad table_a flat_vertices)
  = Ok (svg_document (lit 800 : PrimFloat.float) (lit 600)
          "M400,300 L800,300 L400,0 Z M800,300 L800,0 L400,0 Z ").
Proof. vm_compute. reflexivity. Qed.

(** C4 on the quad with its last point on the far plane: the first
    triangle is emitted, the second is not, and the document is the text
    below. *)
Lemma generateSVG_one_group_witness :
  generateSVG (lit 800) (lit 600) (quad table_a flat_vertices) far_points
  = Ok ("<?xml version=" ++ quotation_mark ++ "1.0" ++ quotation_mark ++
        " encoding=" ++ quotation_mark ++ "UTF-8" ++ quotation_mark ++
        "?>" ++ line_feed ++
        "            <svg width=" ++ quotation_mark ++ "800" ++
        quotation_mark ++ " height=" ++ quotation_mark ++ "600" ++
        quotation_mark ++ " xmlns=" ++ quotation_mark ++
        "http://www.w3.org/2000/svg" ++ quotation_mark ++ ">" ++ line_feed ++
        "                <path d=" ++ quotation_mark ++
        "M400,300 L800,300 L400,0 Z " ++ quotation_mark ++
        " stroke=" ++ quotation_mark ++ "black" ++ quotation_mark ++
        " fill=" ++ quotation_mark ++ "none" ++ quotation_mark ++
        " stroke-width=" ++ quotation_mark ++ "0.5" ++ quotation_mark ++
        "/>" ++ line_feed ++ "            </svg>")%string /\
  outlines far_points [0; 1; 2; 1; 3; 2] = ["M400,300 L800,300 L400,0 Z "%string].
Proof.
  destruct (generateSVG_one_group_per_visible_triangle
              (lit 800) (lit 600) (quad table_a flat_vertices) far_points)
    as (Htext & _ & _ & _ & Hwf).
  assert (outlines far_points [0; 1; 2; 1; 3; 2]
          = ["M400,300 L800,300 L400,0 Z "%string]) as Hgroups
    by (vm_compute; reflexivity).
  split; [|exact Hgroups].
  destruct Hwf as [Hdoc _].
  - repeat (apply List.Forall_cons; [simpl; lia|]). apply List.Forall_nil.
  - reflexivity.
  - destruct (Htext _ Hdoc) as [_ Hchars].
    rewrite Hdoc, Hchars.
    change (index (quad table_a flat_vertices)) with [0; 1; 2; 1; 3; 2].
    rewrite Hgroups. vm_compute. reflexivity.
Defined.

(** The two ends of [0, 1) on binary64, 0 and the double just below 1,
    are draws in range at every iteration. *)
Example run_draws_at_the_ends :
  forallb (draw_in_range_b (fun _ => lit 0 : PrimFloat.float)) (countdown 255)
  = true /\
  forallb (draw_in_range_b (fun _ => PrimFloat.next_down (lit 1)))
          (countdown 255)
  = true.
Proof. split; vm_compute; reflexivity. Qed.

(** A source that returns 1 (outside [0, 1)) breaks the table: the value 0
    is stored twice in the first 256 entries. *)
Example run_makeNoise2D_constant_one :
  count_occ Nat.eq_dec (take 256 (perm (makeNoise2D (fun _ => lit 1)))) 0 = 2.
Proof. vm_compute. reflexivity. Qed.

(** On binary64 the cell offsets of a point far from the origin lose
    their precision, and the sample is no longer small: at [(1e17, 0)] it
    is [64 * (sin 0 + cos 8) * 0.5]. *)
Example run_sample_far_from_origin (trig : MathApprox PrimFloat.float) :
  sample table_a (lit (10 ^ 17)) (lit 0)
  = PrimFloat.mul
      (PrimFloat.mul (lit 64)
         (PrimFloat.add (Math_sin (lit 0)) (Math_cos (lit 8))))
      (lit 0.5).
Proof. unfold sample. vm_compute. reflexivity. Qed.

(** Counterexample to C6 as stated: two maps built with different tables
    and regenerated with the same draw have the same new seed and still
    their own, different tables, so the table is not rebuilt from the
    seed (whatever [Math.sin] and [Math.cos] are). *)
Lemma generateNewMap_table_not_rebuilt :
  table_a = makeNoise2D random_a /\
  table_b = makeNoise2D random_b /\
  (forall trig : MathApprox PrimFloat.float,
     noise_obj (generateNewMap (lit 0.25) (quad table_a flat_vertices))
     = table_a /\
     noise_obj (generateNewMap (lit 0.25) (quad table_b flat_vertices))
     = table_b /\
     seed (generateNewMap (lit 0.25) (quad table_a flat_vertices))
     = seed (generateNewMap (lit 0.25) (quad table_b flat_vertices)) /\
     seed (generateNewMap (lit 0.25) (quad table_a flat_vertices)) = lit 250) /\
  perm table_a <> perm table_b.
Proof.
  split; [by vm_compute|]. split; [by vm_compute|]. split.
  - intros trig. split; [|split; [|split]].
    + apply generateNewMap_frame.
    + apply generateNewMap_frame.
    + reflexivity.
    + reflexivity.
  - apply (bool_decide_eq_false_1 (perm table_a = perm table_b)).
    vm_compute. reflexivity.
Qed.

(** Counterexample to C8 as stated.  With [NaN] as the [x] of vertex 0
    the export returns a document and no error, the triangle of that
    vertex silently left out; and [generateSVG] on points whose first [x]
    is [NaN] writes [NaN] into the path string. *)
Lemma exportSVG_NaN_no_error :
  broken_vertices !! 0 = Some PrimFloat.nan /\
  exportSVG (lit 800) (lit 600) (quad table_a broken_vertices)
  = Ok (svg_document (lit 800 : PrimFloat.float) (lit 600)
          "M800,300 L800,0 L400,0 Z ") /\
  px <$> broken_points !! 0 = Some PrimFloat.nan /\
  generateSVG (lit 800) (lit 600) (quad table_a broken_vertices) broken_points
  = Ok (svg_document (lit 800 : PrimFloat.float) (lit 600)
          "MNaN,300 L800,300 L400,0 Z M800,300 L800,0 L400,0 Z ").
Proof.
  repeat split; vm_compute; reflexivity.
Qed.

End Runs.

(** C8 as the code has it.  The export never reports a computation error
    and checks no number: the only exception it can raise is the
    [TypeError] of a missing point, and for a mesh whose index list is
    made of whole triangles over its vertices it returns the document of
    the projected points as they are; on binary64 a triangle with a [NaN]
    depth fails the test and is left out, and [NaN] and the infinities
    among the coordinates of an emitted triangle are printed as the words
    [NaN], [Infinity] and [-Infinity]. *)
Theorem exportSVG_propagates_non_finite_values :
  (forall (T num : Type) (N : Number num) (S : NumberToString num)
          (Th : Three num) (innerWidth innerHeight : num)
          (this : TopographicalMap T num),
     (forall e : JSError,
        exportSVG innerWidth innerHeight this = Throw e -> e = TypeError) /\
     (Forall (fun v => v < iterations 0 3 (length (position this)))
             (index this) ->
      length (index this) mod 3 = 0 ->
      exportSVG innerWidth innerHeight this
      = Ok (svg_document innerWidth innerHeight
              (join (outlines (projectToSVG innerWidth innerHeight this)
                              (index this)))))) /\
  (forall a b c : ProjectedPoint PrimFloat.float,
     pz a = PrimFloat.nan \/ pz b = PrimFloat.nan \/ pz c = PrimFloat.nan ->
     isTriangleVisible a b c = false) /\
  (forall fraction : PrimFloat.float -> string,
     Binary64.to_string fraction PrimFloat.nan = "NaN"%string /\
     Binary64.to_string fraction PrimFloat.infinity = "Infinity"%string /\
     Binary64.to_string fraction PrimFloat.neg_infinity = "-Infinity"%string).
Proof.
  split; [|split].
  - intros. split.
    + intros e _. by destruct e.
    + by apply exportSVG_total.
  - intros a b c Hnan. unfold isTriangleVisible.
    assert (nlt PrimFloat.nan (lit 1 : PrimFloat.float) = false) as Hlt
      by (vm_compute; reflexivity).
    destruct Hnan as [-> | [-> | ->]]; rewrite Hlt.
    + done.
    + by rewrite andb_false_r.
    + by rewrite andb_false_r.
  - intros fraction. repeat split; vm_compute; reflexivity.
Qed.

Section RunsOfExport.
Import (hints) Binary64.
Import Scenes.
Existing Instance Scenes.printer.
Existing Instance Scenes.three.

(** C8 on the quad with [NaN] as the [x] of vertex 0. *)
Lemma exportSVG_propagates_witness :
  exportSVG (lit 800) (lit 600) (quad table_a broken_vertices)
  = Ok (svg_document (lit 800 : PrimFloat.float) (lit 600)
          (join (outlines (projectToSVG (lit 800) (lit 600)
                             (quad table_a broken_vertices))
                          [0; 1; 2; 1; 3; 2]))).
Proof.
  apply (proj2 (proj1 exportSVG_propagates_non_finite_values
                  Noise2D PrimFloat.float _ _ _ (lit 800) (lit 600)
                  (quad table_a broken_vertices))).
  - repeat (apply List.Forall_cons; [simpl; lia|]). apply List.Forall_nil.
  - reflexivity.
Defined.

End RunsOfExport.
(* ================================================================== *)
(** ** Rounding of binary64 *)

Module IEEEFacts.
Import SpecFloat FloatOps PrimFloat FloatAxioms IEEE Binary64Vocabulary.
Open Scope Z_scope.

(** The number of bits of a positive number. *)
Lemma digits2_pos_bounds (m : positive) :
  2 ^ (Z.pos (digits2_pos m) - 1) <= Z.pos m < 2 ^ Z.pos (digits2_pos m).
Proof.
  induction m as [m IH|m IH|]; cbn [digits2_pos].
  - rewrite Pos2Z.inj_succ. replace (Z.succ (Z.pos (digits2_pos m)) - 1) with (Z.pos (digits2_pos m)) by lia.
    rewrite Z.pow_succ_r by lia.
    replace (2 ^ Z.pos (digits2_pos m)) with (2 * 2 ^ (Z.pos (digits2_pos m) - 1)) in * by (rewrite <- Z.pow_succ_r by lia; f_equal; lia).
    lia.
  - rewrite Pos2Z.inj_succ. replace (Z.succ (Z.pos (digits2_pos m)) - 1) with (Z.pos (digits2_pos m)) by lia.
    rewrite Z.pow_succ_r by lia.
    replace (2 ^ Z.pos (digits2_pos m)) with (2 * 2 ^ (Z.pos (digits2_pos m) - 1)) in * by (rewrite <- Z.pow_succ_r by lia; f_equal; lia).
    lia.
  - simpl. lia.
Qed.

(** [iter_pos] is iteration. *)
Lemma iter_pos_nat {A : Type} (f : A -> A) (p : positive) (x : A) :
  iter_pos f p x = Nat.iter (Pos.to_nat p) f x.
Proof.
  revert x. induction p as [p IH|p IH|]; intros x; cbn [iter_pos].
  - rewrite !IH. rewrite Pos2Nat.inj_xI.
    replace (S (2 * Pos.to_nat p)) with (Pos.to_nat p + (Pos.to_nat p + 1))%nat by lia.
    rewrite !Nat.iter_add. simpl. reflexivity.
  - rewrite !IH. rewrite Pos2Nat.inj_xO.
    replace (2 * Pos.to_nat p)%nat with (Pos.to_nat p + Pos.to_nat p)%nat by lia.
    rewrite Nat.iter_add. reflexivity.
  - reflexivity.
Qed.


Lemma shr_1_spec (m : Z) (r s : bool) :
  0 <= m ->
  shr_1 (Build_shr_record m r s)
  = Build_shr_record (m / 2) (Z.odd m) (r || s).
Proof.
  intros Hm. destruct m as [|p|p]; [reflexivity| |lia].
  destruct p as [p|p|]; cbn [shr_1].
  - f_equal. rewrite Pos2Z.inj_xI.
    apply (Z.div_unique_pos _ _ _ 1); lia.
  - f_equal. rewrite Pos2Z.inj_xO.
    apply (Z.div_unique_pos _ _ _ 0); lia.
  - reflexivity.
Qed.

(** [k] right shifts of [M], starting with clear round and sticky bits. *)

Lemma mod_pow2_succ (M : Z) (k : Z) :
  0 <= k ->
  M mod 2 ^ (k + 1) = M mod 2 ^ k + 2 ^ k * ((M / 2 ^ k) mod 2).
Proof.
  intros Hk. rewrite Z.pow_add_r, Z.pow_1_r by lia.
  rewrite Z.rem_mul_r by lia. reflexivity.
Qed.

Lemma shifted_spec (M : Z) (k : nat) :
  0 <= M ->
  shr_m (shifted M k) = M / 2 ^ Z.of_nat k /\
  match k with
  | O => shr_r (shifted M k) = false /\ shr_s (shifted M k) = false
  | S k' =>
      shr_r (shifted M k) = Z.odd (M / 2 ^ Z.of_nat k') /\
      shr_s (shifted M k) = negb (M mod 2 ^ Z.of_nat k' =? 0)
  end.
Proof.
  intros HM. induction k as [|k IH].
  - simpl. rewrite Z.div_1_r. auto.
  - destruct IH as [Hm Hrs]. unfold shifted in *. rewrite !Nat.iter_succ.
    destruct (Nat.iter k shr_1 _) as [m r s] eqn:Hst. cbn [shr_m shr_r shr_s] in *.
    rewrite shr_1_spec by (subst m; apply Z.div_pos; [lia|apply Z.pow_pos_nonneg; lia]).
    cbn [shr_m shr_r shr_s]. split; [|split].
    + subst m. rewrite Z.div_div by (try apply Z.pow_pos_nonneg; lia).
      f_equal. rewrite Nat2Z.inj_succ, Z.pow_succ_r by lia. lia.
    + by subst m.
    + destruct k as [|k'].
      * destruct Hrs as [-> ->]. simpl. rewrite Z.mod_1_r. reflexivity.
      * destruct Hrs as [-> ->].
        rewrite (Nat2Z.inj_succ k'), <- Z.add_1_r.
        rewrite (mod_pow2_succ M (Z.of_nat k')) by lia.
        assert (0 <= M mod 2 ^ Z.of_nat k' < 2 ^ Z.of_nat k') as Hrem
          by (apply Z.mod_pos_bound, Z.pow_pos_nonneg; lia).
        assert (0 < 2 ^ Z.of_nat k') as Hpow by (apply Z.pow_pos_nonneg; lia).
        rewrite Zmod_odd. destruct (Z.odd (M / 2 ^ Z.of_nat k')).
        -- simpl. symmetry. apply negb_true_iff, Z.eqb_neq. lia.
        -- simpl. by rewrite Z.mul_0_r, Z.add_0_r.
Qed.

(** The location after [k >= 1] shifts of [M], by the remainder. *)
Lemma shifted_location (M : Z) (k : nat) :
  0 <= M -> (0 < k)%nat ->
  loc_of_shr_record (shifted M k)
  = if M mod 2 ^ Z.of_nat k =? 0 then loc_Exact
    else loc_Inexact (M mod 2 ^ Z.of_nat k ?= 2 ^ (Z.of_nat k - 1)).
Proof.
  intros HM Hk. destruct k as [|k']; [lia|].
  destruct (shifted_spec M (S k') HM) as [_ [Hr Hs]].
  destruct (shifted M (S k')) as [m r s]. cbn [shr_r shr_s] in *. subst r s.
  rewrite Nat2Z.inj_succ, <- Z.add_1_r.
  replace (Z.of_nat k' + 1 - 1) with (Z.of_nat k') by lia.
  rewrite (mod_pow2_succ M (Z.of_nat k')) by lia.
  assert (0 <= M mod 2 ^ Z.of_nat k' < 2 ^ Z.of_nat k') as Hrem
    by (apply Z.mod_pos_bound, Z.pow_pos_nonneg; lia).
  rewrite Zmod_odd. destruct (Z.odd (M / 2 ^ Z.of_nat k')); cbn [loc_of_shr_record].
  - rewrite Z.mul_1_r.
    destruct (M mod 2 ^ Z.of_nat k' =? 0) eqn:Hz; cbn [negb].
    + apply Z.eqb_eq in Hz. rewrite Hz, Z.add_0_l.
      replace (2 ^ Z.of_nat k' =? 0) with false by (symmetry; apply Z.eqb_neq; lia).
      by rewrite Z.compare_refl.
    + apply Z.eqb_neq in Hz.
      replace (M mod 2 ^ Z.of_nat k' + 2 ^ Z.of_nat k' =? 0) with false
        by (symmetry; apply Z.eqb_neq; lia).
      replace (M mod 2 ^ Z.of_nat k' + 2 ^ Z.of_nat k' ?= 2 ^ Z.of_nat k')
        with Gt by (symmetry; apply Z.compare_gt_iff; lia).
      reflexivity.
  - rewrite Z.mul_0_r, Z.add_0_r.
    destruct (M mod 2 ^ Z.of_nat k' =? 0) eqn:Hz; cbn [negb]; [reflexivity|].
    replace (M mod 2 ^ Z.of_nat k' ?= 2 ^ Z.of_nat k')
      with Lt by (symmetry; apply Z.compare_lt_iff; lia).
    reflexivity.
Qed.


(** Rounding to nearest even after [n >= 1] shifts: the result is the
    quotient or its successor, the quotient when the division is exact,
    and within half a unit of the exact value. *)
Lemma round_shifted (M : Z) (k : nat) :
  0 <= M -> (0 < k)%nat ->
  let q := M / 2 ^ Z.of_nat k in
  let qr := round_nearest_even (shr_m (shifted M k))
              (loc_of_shr_record (shifted M k)) in
  q <= qr <= q + 1 /\
  (M mod 2 ^ Z.of_nat k = 0 -> qr = q) /\
  2 * (qr * 2 ^ Z.of_nat k) <= 2 * M + 2 ^ Z.of_nat k /\
  2 * M <= 2 * (qr * 2 ^ Z.of_nat k) + 2 ^ Z.of_nat k.
Proof.
  intros HM Hk q qr. subst qr.
  rewrite shifted_location by done.
  destruct (shifted_spec M k HM) as [-> _]. fold q.
  assert (0 < 2 ^ Z.of_nat k) as Hpow by (apply Z.pow_pos_nonneg; lia).
  assert (Hdm := Z.div_mod M (2 ^ Z.of_nat k) ltac:(lia)). fold q in Hdm.
  assert (0 <= M mod 2 ^ Z.of_nat k < 2 ^ Z.of_nat k) as Hrem
    by (apply Z.mod_pos_bound; lia).
  assert (2 ^ Z.of_nat k = 2 * 2 ^ (Z.of_nat k - 1)) as Hhalf.
  { rewrite <- Z.pow_succ_r by lia; f_equal; lia. }
  set (rem := M mod 2 ^ Z.of_nat k) in *.
  set (half := 2 ^ (Z.of_nat k - 1)) in *.
  set (P := 2 ^ Z.of_nat k) in *.
  destruct (rem =? 0) eqn:Hz; cbn [round_nearest_even].
  - apply Z.eqb_eq in Hz. repeat split; try lia.
  - apply Z.eqb_neq in Hz.
    destruct (rem ?= half) eqn:Hc.
    + rewrite Z.compare_eq_iff in Hc.
      destruct (Z.even q); repeat split; lia.
    + rewrite Z.compare_lt_iff in Hc. repeat split; lia.
    + rewrite Z.compare_gt_iff in Hc. repeat split; lia.
Qed.


Lemma shr_spec (M e n : Z) :
  shr (Build_shr_record M false false) e n
  = if 0 <? n then (shifted M (Z.to_nat n), e + n)
    else (Build_shr_record M false false, e).
Proof.
  destruct n as [|p|p]; cbn [shr]; try reflexivity.
  replace (0 <? Z.pos p) with true by (symmetry; apply Z.ltb_lt; lia).
  by rewrite iter_pos_nat.
Qed.

(** What [binary_round_aux] returns for a mantissa and an exponent. *)

(** Rounding [M * 2^e] (all quantities scaled by [2^K]): the result is
    below [M * 2^e] plus half a unit of the target exponent [t], not above
    the exact value when no bit is lost, and not above any multiple of the
    unit that the exact value does not exceed. *)
Lemma binary_round_aux_upper (s : bool) (M e K : Z) :
  0 < M -> 0 <= e + K ->
  let t := fexp prec emax (Zdigits2 M + e) in
  exists m2 e2 : Z,
    binary_round_aux prec emax s M e loc_Exact = round_result s m2 e2 /\
    0 <= m2 /\ e <= e2 /\
    (t <= e -> m2 * 2 ^ (e2 + K) <= M * 2 ^ (e + K)) /\
    (e < t ->
       2 * (m2 * 2 ^ (e2 + K)) <= 2 * (M * 2 ^ (e + K)) + 2 ^ (t + K) /\
       forall beta : Z,
         M * 2 ^ (e + K) <= beta * 2 ^ (t + K) ->
         m2 * 2 ^ (e2 + K) <= beta * 2 ^ (t + K)).
Proof.
  intros HM HK t.
  unfold binary_round_aux, shr_fexp. fold t.
  cbn [shr_record_of_loc]. rewrite shr_spec.
  (* the first shift *)
  assert (exists qr e1 : Z,
            (let '(mrs', e') :=
               if 0 <? t - e then (shifted M (Z.to_nat (t - e)), e + (t - e))
               else (Build_shr_record M false false, e) in
             (round_nearest_even (shr_m mrs') (loc_of_shr_record mrs'), e'))
            = (qr, e1) /\
            0 <= qr /\ e <= e1 /\
            (t <= e -> qr * 2 ^ (e1 + K) = M * 2 ^ (e + K)) /\
            (e < t ->
               e1 = t /\
               2 * (qr * 2 ^ (t + K)) <= 2 * (M * 2 ^ (e + K)) + 2 ^ (t + K) /\
               forall beta : Z,
                 M * 2 ^ (e + K) <= beta * 2 ^ (t + K) ->
                 qr * 2 ^ (t + K) <= beta * 2 ^ (t + K)))
    as (qr & e1 & Hfirst & Hqr & He1 & Hexact & Hround).
  { destruct (0 <? t - e) eqn:Hn.
    - apply Z.ltb_lt in Hn.
      set (k := Z.to_nat (t - e)).
      assert (0 < k)%nat as Hk by (unfold k; lia).
      assert (Z.of_nat k = t - e) as Hkz by (unfold k; lia).
      destruct (round_shifted M k ltac:(lia) Hk) as (Hq & Hex & Hup & Hlo).
      rewrite Hkz in *.
      set (qr := round_nearest_even _ _) in *.
      set (q := M / 2 ^ (t - e)) in *.
      assert (0 < 2 ^ (t - e)) as Hpow by (apply Z.pow_pos_nonneg; lia).
      assert (0 < 2 ^ (e + K)) as HpowK by (apply Z.pow_pos_nonneg; lia).
      assert (2 ^ (t + K) = 2 ^ (t - e) * 2 ^ (e + K)) as Hsplit.
      { rewrite <- Z.pow_add_r by lia. f_equal. lia. }
      assert (0 <= q) by (apply Z.div_pos; lia).
      exists qr, (e + (t - e)). split; [reflexivity|].
      split; [lia|]. split; [lia|]. split; [lia|]. intros _.
      split; [lia|]. split.
      + rewrite Hsplit. nia.
      + intros beta Hbeta. rewrite Hsplit in *.
        assert (M <= beta * 2 ^ (t - e)) as HMb by nia.
        assert (Hdm := Z.div_mod M (2 ^ (t - e)) ltac:(lia)). fold q in Hdm.
        assert (0 <= M mod 2 ^ (t - e) < 2 ^ (t - e)) as Hrem
          by (apply Z.mod_pos_bound; lia).
        assert (qr <= beta) as Hle.
        { destruct (Z.eq_dec (M mod 2 ^ (t - e)) 0) as [Hz|Hnz].
          - rewrite (Hex Hz). nia.
          - assert (q < beta) by nia. lia. }
        nia.
    - apply Z.ltb_ge in Hn. cbn [shr_m loc_of_shr_record round_nearest_even].
      exists M, e. split; [reflexivity|]. split; [lia|]. split; [lia|].
      split; [reflexivity|]. intros Hlt. lia. }
  destruct (if 0 <? t - e then _ else _) as [mrs' e'].
  injection Hfirst as -> ->.
  (* the second shift *)
  rewrite shr_spec.
  set (n2 := fexp prec emax (Zdigits2 qr + e1) - e1).
  assert (0 <= e1 + K) as HK1 by lia.
  destruct (0 <? n2) eqn:Hn2.
  - apply Z.ltb_lt in Hn2.
    destruct (shifted_spec qr (Z.to_nat n2) Hqr) as [Hm2 _].
    rewrite Z2Nat.id in Hm2 by lia.
    exists (qr / 2 ^ n2), (e1 + n2).
    assert (0 < 2 ^ n2) as Hpow by (apply Z.pow_pos_nonneg; lia).
    assert (0 < 2 ^ (e1 + K)) as HpowK by (apply Z.pow_pos_nonneg; lia).
    assert (2 ^ (e1 + n2 + K) = 2 ^ n2 * 2 ^ (e1 + K)) as Hsplit.
    { rewrite <- Z.pow_add_r by lia. f_equal. lia. }
    assert (qr / 2 ^ n2 * 2 ^ (e1 + n2 + K) <= qr * 2 ^ (e1 + K)) as Hfloor.
    { rewrite Hsplit. assert (Hd := Z.mul_div_le qr (2 ^ n2) Hpow). nia. }
    split.
    { unfold round_result. rewrite Hm2. reflexivity. }
    split; [apply Z.div_pos; lia|]. split; [lia|]. split.
    + intros Hte. rewrite <- (Hexact Hte). exact Hfloor.
    + intros Hlt. destruct (Hround Hlt) as (-> & Hup & Hgrid). split.
      * lia.
      * intros beta Hbeta. specialize (Hgrid beta Hbeta). lia.
  - exists qr, e1. split; [reflexivity|]. split; [lia|]. split; [lia|]. split.
    + intros Hte. rewrite (Hexact Hte). lia.
    + intros Hlt. destruct (Hround Hlt) as (-> & Hup & Hgrid). split; [lia|].
      exact Hgrid.
Qed.


(** *** Valid binary64 numbers and their magnitudes *)


Lemma valid_finite (s : bool) (m : positive) (e : Z) :
  valid64 (S754_finite s m e) = true ->
  -1074 <= e <= 971 /\ Z.pos (digits2_pos m) <= 53 /\
  (-1074 < e -> Z.pos (digits2_pos m) = 53).
Proof.
  unfold valid_binary, bounded, canonical_mantissa, fexp, emin, prec, emax.
  rewrite andb_true_iff, Z.eqb_eq, Z.leb_le. lia.
Qed.

Lemma pow2_pos (a : Z) : 0 <= a -> 0 < 2 ^ a.
Proof. intros. apply Z.pow_pos_nonneg; lia. Qed.

Lemma pow2_le (a b : Z) : 0 <= a <= b -> 2 ^ a <= 2 ^ b.
Proof. intros. apply Z.pow_le_mono_r; lia. Qed.

Lemma pow2_lt (a b : Z) : 0 <= a < b -> 2 ^ a < 2 ^ b.
Proof. intros. apply Z.pow_lt_mono_r; lia. Qed.

Lemma pow2_le_inv (a b : Z) : 0 <= b -> 2 ^ a <= 2 ^ b -> a <= b.
Proof.
  intros Hb Hle. destruct (Z_le_gt_dec a b) as [|Hgt]; [done|].
  assert (2 ^ b < 2 ^ a) by (apply pow2_lt; lia). lia.
Qed.

Lemma pow2_lt_inv (a b : Z) : 0 <= b -> 2 ^ a < 2 ^ b -> a < b.
Proof.
  intros Hb Hlt. destruct (Z_lt_ge_dec a b) as [|Hge]; [done|].
  assert (2 ^ b <= 2 ^ a) by (apply pow2_le; lia). lia.
Qed.

Lemma pow2_add (a b : Z) : 0 <= a -> 0 <= b -> 2 ^ (a + b) = 2 ^ a * 2 ^ b.
Proof. intros. apply Z.pow_add_r; lia. Qed.

Section Scaled.
(** All magnitudes are scaled by [2^K], which makes them integers. *)
Variable K : Z.
Hypothesis K_large : 1200 <= K.


Lemma magnitude_le_mono (B B' : Z) (x : spec_float) :
  B <= B' -> 0 <= B' -> magnitude_le K B x -> magnitude_le K B' x.
Proof. destruct x; simpl; intros; try done; lia. Qed.

Lemma round_result_magnitude (s : bool) (m2 e2 B : Z) :
  0 <= m2 -> 0 <= e2 + K -> m2 * 2 ^ (e2 + K) <= B -> B <= 2 ^ (K + 2) ->
  magnitude_le K B (round_result s m2 e2).
Proof using K_large.
  intros Hm He Hle HB. unfold round_result.
  destruct m2 as [|m|m]; [done| |lia].
  assert (0 < 2 ^ (e2 + K)) by (apply pow2_pos; lia).
  assert (2 ^ (e2 + K) <= 2 ^ (K + 2)) as Hpow by nia.
  apply pow2_le_inv in Hpow; [|lia].
  replace (e2 <=? emax - prec) with true
    by (symmetry; apply Z.leb_le; unfold emax, prec; lia).
  exact Hle.
Qed.

(** The digits of a mantissa whose scaled value is at most [2^(K+j)]. *)
Lemma digits_of_bound (M e j : Z) :
  0 < M -> 0 <= e + K -> 0 <= K + j -> M * 2 ^ (e + K) <= 2 ^ (K + j) ->
  Zdigits2 M + e <= j + 1.
Proof.
  intros HM He Hj Hle. destruct M as [|m|m]; try lia. cbn [Zdigits2].
  destruct (digits2_pos_bounds m) as [Hlo _].
  assert (0 < Z.pos (digits2_pos m)) by lia.
  assert (0 < 2 ^ (e + K)) by (apply pow2_pos; lia).
  assert (2 ^ (Z.pos (digits2_pos m) - 1 + (e + K)) <= 2 ^ (K + j)) as Hpow.
  { rewrite pow2_add by lia. nia. }
  apply pow2_le_inv in Hpow; lia.
Qed.

(** Rounding a value of magnitude at most [B], for a bound [B] that is a
    multiple of [2^(K + j - 52)] and at most [2^(K + j)]: the result has
    magnitude at most [B]. *)
Lemma binary_round_aux_magnitude (s : bool) (M e B j : Z) :
  0 < M -> 0 <= e + K -> -1021 <= j <= 2 ->
  M * 2 ^ (e + K) <= B -> B <= 2 ^ (K + j) ->
  (2 ^ (K + j - 52) | B) ->
  magnitude_le K B (binary_round_aux prec emax s M e loc_Exact).
Proof using K_large.
  intros HM He Hj Hle HB [beta0 Hdiv].
  destruct (binary_round_aux_upper s M e K HM He)
    as (m2 & e2 & -> & Hm2 & He2 & Hexact & Hround).
  assert (2 ^ (K + j) <= 2 ^ (K + 2)) by (apply pow2_le; lia).
  apply round_result_magnitude; [done|lia| |lia].
  set (t := fexp prec emax (Zdigits2 M + e)) in *.
  destruct (Z_le_gt_dec t e) as [Hte|Hte].
  - specialize (Hexact Hte). lia.
  - destruct (Hround ltac:(lia)) as [_ Hgrid].
    assert (Zdigits2 M + e <= j + 1) as Hd
      by (apply digits_of_bound; [done|lia|lia|lia]).
    assert (t <= j - 52) as Ht
      by (unfold t, fexp, emin, prec, emax; lia).
    assert (-1074 <= t) by (unfold t, fexp, emin, prec, emax; lia).
    assert (2 ^ (K + j - 52) = 2 ^ (j - 52 - t) * 2 ^ (t + K)) as Hsplit.
    { rewrite <- pow2_add by lia; f_equal; lia. }
    apply (Z.le_trans _ (beta0 * 2 ^ (j - 52 - t) * 2 ^ (t + K))); [|lia].
    apply Hgrid. lia.
Qed.


Lemma pos_iter_xO (m d : positive) :
  Z.pos (Pos.iter xO m d) = Z.pos m * 2 ^ Z.pos d.
Proof.
  induction d as [|d IH] using Pos.peano_ind.
  - simpl. lia.
  - rewrite Pos.iter_succ, Pos2Z.inj_xO, IH, Pos2Z.inj_succ.
    rewrite Z.pow_succ_r by lia. lia.
Qed.

(** Aligning a mantissa to a lower exponent keeps the value. *)
Lemma shl_align_value (m : positive) (e t : Z) :
  0 <= e + K -> 0 <= t + K ->
  exists (m' : positive) (e' : Z),
    shl_align m e t = (m', e') /\ 0 <= e' + K /\
    Z.pos m' * 2 ^ (e' + K) = Z.pos m * 2 ^ (e + K) /\
    (t <= e -> e' = t).
Proof.
  intros He Ht. unfold shl_align.
  destruct (t - e) as [|d|d] eqn:Hd.
  - exists m, e. repeat split; try done. lia.
  - exists m, e. repeat split; try done. lia.
  - exists (Pos.iter xO m d), t. split; [done|]. split; [done|]. split; [|done].
    rewrite pos_iter_xO.
    replace (e + K) with (Z.pos d + (t + K)) by lia.
    rewrite (pow2_add (Z.pos d)) by lia. lia.
Qed.

Lemma binary_round_magnitude (s : bool) (m : positive) (e B j : Z) :
  0 <= e + K -> -1021 <= j <= 2 ->
  Z.pos m * 2 ^ (e + K) <= B -> B <= 2 ^ (K + j) ->
  (2 ^ (K + j - 52) | B) ->
  magnitude_le K B (binary_round prec emax s m e).
Proof using K_large.
  intros He Hj Hle HB Hdiv. unfold binary_round.
  set (t := fexp prec emax (Z.pos (digits2_pos m) + e)).
  assert (-1074 <= t) by (unfold t, fexp, emin, prec, emax; lia).
  destruct (shl_align_value m e t He ltac:(lia)) as (m' & e' & -> & He' & Hv & _).
  apply (binary_round_aux_magnitude s (Z.pos m') e' B j); try done; lia.
Qed.

(** The sum of two numbers of magnitudes at most [Bx] and [By]. *)
Lemma SFadd_magnitude (x y : spec_float) (Bx By j : Z) :
  valid64 x = true -> valid64 y = true ->
  0 <= Bx -> 0 <= By ->
  magnitude_le K Bx x -> magnitude_le K By y ->
  -1021 <= j <= 2 -> Bx + By <= 2 ^ (K + j) ->
  (2 ^ (K + j - 52) | Bx + By) ->
  magnitude_le K (Bx + By) (SFadd prec emax x y).
Proof using K_large.
  intros Vx Vy HBx HBy Hx Hy Hj HB Hdiv.
  destruct x as [sx|sx| |sx mx ex]; try done;
    destruct y as [sy|sy| |sy my ey]; try done.
  - cbn [SFadd]. by destruct sx, sy.
  - cbn [SFadd magnitude_le] in *. lia.
  - cbn [SFadd magnitude_le] in *. lia.
  - cbn [SFadd]. cbn [magnitude_le] in Hx, Hy.
    destruct (valid_finite _ _ _ Vx) as (Hex & _).
    destruct (valid_finite _ _ _ Vy) as (Hey & _).
    set (ez := Z.min ex ey).
    assert (ez <= ex /\ ez <= ey) as [Hzx Hzy] by (unfold ez; lia).
    destruct (shl_align_value mx ex ez ltac:(lia) ltac:(lia))
      as (mx' & ex' & -> & _ & Hvx & Hex').
    destruct (shl_align_value my ey ez ltac:(lia) ltac:(lia))
      as (my' & ey' & -> & _ & Hvy & Hey').
    rewrite (Hex' Hzx) in Hvx. rewrite (Hey' Hzy) in Hvy. cbn [fst].
    assert (0 < 2 ^ (ez + K)) as Hpow by (apply pow2_pos; lia).
    set (S := cond_Zopp sx (Z.pos mx') + cond_Zopp sy (Z.pos my')).
    assert (Z.abs S <= Z.pos mx' + Z.pos my') as Habs
      by (unfold S, cond_Zopp; destruct sx, sy; lia).
    unfold binary_normalize. destruct S as [|m|m] eqn:HS; [done| |].
    + apply binary_round_magnitude with (j := j); try done; [lia|nia].
    + apply binary_round_magnitude with (j := j); try done; [lia|nia].
Qed.

(** The product with a power of two [2^(-k)], written
    [2^52 * 2^(-52 - k)]. *)
Lemma SFmul_pow2_magnitude (x : spec_float) (k : Z) :
  valid64 x = true -> 0 <= k <= 2 ->
  magnitude_le K (2 ^ K) x ->
  magnitude_le K (2 ^ (K - k))
    (SFmul prec emax x (S754_finite false 4503599627370496 (-52 - k))).
Proof using K_large.
  intros Vx Hk Hx.
  destruct x as [sx|sx| |sx mx ex]; try done.
  cbn [SFmul]. cbn [magnitude_le] in Hx.
  destruct (valid_finite _ _ _ Vx) as (Hex & _).
  assert (0 < 2 ^ k) by (apply pow2_pos; lia).
  assert (0 < 2 ^ (ex + K - k)) by (apply pow2_pos; lia).
  assert (2 ^ (ex + K) = 2 ^ (ex + K - k) * 2 ^ k) as Hsplit1.
  { rewrite <- pow2_add by lia; f_equal; lia. }
  assert (2 ^ K = 2 ^ (K - k) * 2 ^ k) as Hsplit2.
  { rewrite <- pow2_add by lia; f_equal; lia. }
  apply (binary_round_aux_magnitude _ _ _ _ (- k)); try lia.
  - rewrite Pos2Z.inj_mul.
    change (Z.pos 4503599627370496) with (2 ^ 52).
    replace (ex + (-52 - k) + K) with (ex + K - k - 52) by lia.
    assert (2 ^ (ex + K - k) = 2 ^ 52 * 2 ^ (ex + K - k - 52)) as Hsplit3.
    { rewrite <- pow2_add by lia; f_equal; lia. }
    nia.
  - apply pow2_le. lia.
  - exists (2 ^ 52). rewrite <- pow2_add by lia. f_equal. lia.
Qed.



(** *** Comparisons *)

(** Among valid numbers a smaller exponent means a smaller magnitude. *)
Lemma scaled_lt (s1 s2 : bool) (m1 m2 : positive) (e1 e2 : Z) :
  valid64 (S754_finite s1 m1 e1) = true ->
  valid64 (S754_finite s2 m2 e2) = true ->
  e1 < e2 ->
  Z.pos m1 * 2 ^ (e1 + K) < Z.pos m2 * 2 ^ (e2 + K).
Proof using K_large.
  intros V1 V2 Hlt.
  destruct (valid_finite _ _ _ V1) as (He1 & Hd1 & _).
  destruct (valid_finite _ _ _ V2) as (He2 & _ & Hd2).
  specialize (Hd2 ltac:(lia)).
  destruct (digits2_pos_bounds m1) as [_ Hm1].
  destruct (digits2_pos_bounds m2) as [Hm2 _]. rewrite Hd2 in Hm2.
  assert (2 ^ Z.pos (digits2_pos m1) <= 2 ^ 53) by (apply pow2_le; lia).
  assert (0 < 2 ^ (e1 + K)) by (apply pow2_pos; lia).
  assert (2 ^ (e1 + 1 + K) <= 2 ^ (e2 + K)) by (apply pow2_le; lia).
  assert (2 ^ (e1 + 1 + K) = 2 * 2 ^ (e1 + K)) as Hsucc.
  { replace (e1 + 1 + K) with (Z.succ (e1 + K)) by lia.
    apply Z.pow_succ_r. lia. }
  change (2 ^ (53 - 1)) with 4503599627370496 in Hm2.
  change (2 ^ 53) with 9007199254740992 in *.
  nia.
Qed.

Lemma SFcompare_magnitudes (s : bool) (m1 m2 : positive) (e1 e2 : Z) :
  valid64 (S754_finite s m1 e1) = true ->
  valid64 (S754_finite s m2 e2) = true ->
  SFcompare (S754_finite s m1 e1) (S754_finite s m2 e2)
  = Some (if s
          then Z.pos m2 * 2 ^ (e2 + K) ?= Z.pos m1 * 2 ^ (e1 + K)
          else Z.pos m1 * 2 ^ (e1 + K) ?= Z.pos m2 * 2 ^ (e2 + K)).
Proof using K_large.
  intros V1 V2. cbn [SFcompare].
  destruct (valid_finite _ _ _ V1) as (He1 & _).
  destruct (Z.compare_spec e1 e2) as [Heq|Hlt|Hgt].
  - subst e2. assert (0 < 2 ^ (e1 + K)) as Hpow by (apply pow2_pos; lia).
    change (Pos.compare_cont Eq m1 m2) with (Z.pos m1 ?= Z.pos m2).
    destruct s; f_equal.
    + rewrite <- (Zmult_compare_compat_r _ _ (2 ^ (e1 + K))) by lia.
      rewrite (Z.compare_antisym (Z.pos m1)). reflexivity.
    + rewrite <- (Zmult_compare_compat_r _ _ (2 ^ (e1 + K))) by lia.
      reflexivity.
  - assert (Hs := scaled_lt s s m1 m2 e1 e2 V1 V2 Hlt).
    destruct s; f_equal; symmetry.
    + apply Z.compare_gt_iff. lia.
    + apply Z.compare_lt_iff. lia.
  - assert (Hs := scaled_lt s s m2 m1 e2 e1 V2 V1 ltac:(lia)).
    destruct s; f_equal; symmetry.
    + apply Z.compare_lt_iff. lia.
    + apply Z.compare_gt_iff. lia.
Qed.

(** A valid number between [-b] and [b], for a valid finite [b], has at
    most the magnitude of [b]; and conversely. *)
Lemma SFleb_magnitude (x : spec_float) (mb : positive) (eb : Z) :
  valid64 x = true -> valid64 (S754_finite false mb eb) = true ->
  (SFleb x (S754_finite false mb eb) = true /\
   SFleb (S754_finite true mb eb) x = true)
  <-> magnitude_le K (Z.pos mb * 2 ^ (eb + K)) x.
Proof using K_large.
  intros Vx Vb.
  assert (valid64 (S754_finite true mb eb) = true) as Vb' by exact Vb.
  unfold SFleb.
  destruct x as [sx|sx| |sx mx ex]; cbn [magnitude_le].
  - cbn [SFcompare]. tauto.
  - cbn [SFcompare]. destruct sx; split; try done; intros [? ?]; done.
  - cbn [SFcompare]. split; [intros [? ?]; done|done].
  - destruct sx.
    + assert (valid64 (S754_finite true mx ex) = true) as Vx' by exact Vx.
      rewrite (SFcompare_magnitudes true mb mx eb ex Vb' Vx').
      cbn [SFcompare].
      destruct (Z.compare_spec (Z.pos mx * 2 ^ (ex + K))
                               (Z.pos mb * 2 ^ (eb + K))); split;
        try (intros [_ ?]; done); try lia; intros; split; done.
    + rewrite (SFcompare_magnitudes false mx mb ex eb Vx Vb).
      cbn [SFcompare].
      destruct (Z.compare_spec (Z.pos mx * 2 ^ (ex + K))
                               (Z.pos mb * 2 ^ (eb + K))); split;
        try (intros [? _]; done); try lia; intros; split; done.
Qed.

End Scaled.

(** *** Sums of three octaves on binary64 *)



Lemma in_unit_magnitude (x : float) :
  in_unit x -> magnitude_le 1200 (2 ^ 1200) (Prim2SF x).
Proof.
  intros [Hlo Hhi]. rewrite leb_spec in Hlo, Hhi.
  change (Prim2SF 1) with (S754_finite false 4503599627370496 (-52)) in Hhi.
  change (Prim2SF (-1)) with (S754_finite true 4503599627370496 (-52)) in Hlo.
  pose proof (proj1 (SFleb_magnitude 1200 ltac:(lia) (Prim2SF x)
                       4503599627370496 (-52) (Prim2SF_valid x) eq_refl)
                    (conj Hhi Hlo)) as Hm.
  eapply magnitude_le_mono; [| |exact Hm].
  - change (Z.pos 4503599627370496) with (2 ^ 52).
    rewrite <- pow2_add by lia. apply pow2_le. lia.
  - apply Z.lt_le_incl, pow2_pos. lia.
Qed.

Lemma octave_sum_binary64 (a b c : float) :
  in_unit a -> in_unit b -> in_unit c ->
  in_octave_sum (0 + a * 1 + b * 0.5 + c * 0.25)%float.
Proof.
  intros Ha Hb Hc. set (h := (0 + a * 1 + b * 0.5 + c * 0.25)%float).
  apply in_unit_magnitude in Ha, Hb, Hc.
  set (K := 1200) in *.
  assert (1200 <= K) as HK by (unfold K; lia).
  clearbody K.
  assert (magnitude_le K (2 ^ (K - 0)) (Prim2SF (a * 1))) as Ha1.
  { rewrite mul_spec.
    exact (SFmul_pow2_magnitude K HK (Prim2SF a) 0 (Prim2SF_valid a)
             ltac:(lia) Ha). }
  assert (magnitude_le K (2 ^ (K - 1)) (Prim2SF (b * 0.5))) as Hb1.
  { rewrite mul_spec.
    exact (SFmul_pow2_magnitude K HK (Prim2SF b) 1 (Prim2SF_valid b)
             ltac:(lia) Hb). }
  assert (magnitude_le K (2 ^ (K - 2)) (Prim2SF (c * 0.25))) as Hc1.
  { rewrite mul_spec.
    exact (SFmul_pow2_magnitude K HK (Prim2SF c) 2 (Prim2SF_valid c)
             ltac:(lia) Hc). }
  assert (0 < 2 ^ (K - 2)) as Hp2 by (apply pow2_pos; lia).
  assert (2 ^ (K - 1) = 2 * 2 ^ (K - 2)) as Hp1.
  { rewrite <- Z.pow_succ_r by lia; f_equal; lia. }
  assert (2 ^ (K - 0) = 4 * 2 ^ (K - 2)) as Hp0.
  { replace (K - 0) with (Z.succ (K - 1)) by lia. rewrite Z.pow_succ_r by lia. lia. }
  assert (2 ^ (K + 1) = 8 * 2 ^ (K - 2)) as Hp3.
  { replace (K + 1) with (Z.succ (K - 0)) by lia. rewrite Z.pow_succ_r by lia. lia. }
  assert (2 ^ (K - 2) = 2 ^ 49 * 2 ^ (K + 1 - 52)) as Hq.
  { rewrite <- pow2_add by lia; f_equal; lia. }
  assert (magnitude_le K (0 + 2 ^ (K - 0)) (Prim2SF (0 + a * 1))) as H1.
  { rewrite add_spec.
    apply SFadd_magnitude with (j := 1); try done; try apply Prim2SF_valid; try lia.
    exists (4 * 2 ^ 49). lia. }
  assert (magnitude_le K (0 + 2 ^ (K - 0) + 2 ^ (K - 1))
            (Prim2SF (0 + a * 1 + b * 0.5))) as H2.
  { rewrite add_spec.
    apply SFadd_magnitude with (j := 1); try done; try apply Prim2SF_valid; try lia.
    exists (6 * 2 ^ 49). lia. }
  assert (magnitude_le K (0 + 2 ^ (K - 0) + 2 ^ (K - 1) + 2 ^ (K - 2))
            (Prim2SF (0 + a * 1 + b * 0.5 + c * 0.25))) as H3.
  { rewrite add_spec.
    apply SFadd_magnitude with (j := 1); try done; try apply Prim2SF_valid; try lia.
    exists (7 * 2 ^ 49). lia. }
  fold h in H3.
  assert (magnitude_le K (Z.pos 7881299347898368 * 2 ^ (-52 + K)) (Prim2SF h)) as H4.
  { eapply magnitude_le_mono; [| |exact H3].
    - change (Z.pos 7881299347898368) with (7 * 2 ^ 50).
      assert (2 ^ (K - 2) = 2 ^ 50 * 2 ^ (-52 + K)) as Hr
        by (rewrite <- pow2_add by lia; f_equal; lia).
      rewrite Hp0, Hp1, Hr. clear.
      generalize (2 ^ (-52 + K)). intros X. lia.
    - assert (0 < 2 ^ (-52 + K)) by (apply pow2_pos; lia). lia. }
  apply (SFleb_magnitude K HK (Prim2SF h) 7881299347898368 (-52)
           (Prim2SF_valid h) eq_refl) in H4 as [Hhi Hlo].
  unfold in_octave_sum, within. rewrite !leb_spec. split; [exact Hlo|exact Hhi].
Qed.

End IEEEFacts.
(* ================================================================== *)
(** ** Magnitudes, on binary64 *)

Section Binary64Heights.
Import (hints) Binary64.
Import PrimFloat Binary64Vocabulary.
Context {T : Type} `{Three float} `{NoiseObject T float}.
Open Scope num_scope.

(** C9.  On the doubles of the program, for every noise object, every
    [x], [y] and seed: when the three samples [generateHeight(x, y)] takes
    (at [(x*0.5 + seed, y*0.5 + seed)], [(x*0.5*2 + seed, y*0.5*2 + seed)]
    and [(x*0.5*4 + seed, y*0.5*4 + seed)]) lie in [-1, 1], the height
    lies in [-1.75, 1.75]: the rounding of the three products and the
    three sums never leaves the interval. *)
Theorem generateHeight_within_octave_sum (this : TopographicalMap T float)
    (x y : float) :
  in_unit (noise (noise_obj this)
             (x * lit 0.5 + seed this) (y * lit 0.5 + seed this)) ->
  in_unit (noise (noise_obj this)
             (x * lit 0.5 * lit 2 + seed this)
             (y * lit 0.5 * lit 2 + seed this)) ->
  in_unit (noise (noise_obj this)
             (x * lit 0.5 * lit 4 + seed this)
             (y * lit 0.5 * lit 4 + seed this)) ->
  in_octave_sum (generateHeight this x y).
Proof.
  intros H1 H2 H4. unfold generateHeight.
  cbn [nadd nmul Binary64.float_Number] in *.
  change (lit 0) with 0%float.
  change (lit 1.0) with 1%float.
  change (lit 0.5 : float) with 0.5%float in *.
  change (lit 0.25) with 0.25%float.
  by apply IEEEFacts.octave_sum_binary64.
Qed.

End Binary64Heights.

Section OctaveSumRuns.
Import (hints) Binary64.
Import PrimFloat Binary64Vocabulary Scenes.
Existing Instance Scenes.three.
Existing Instance Scenes.constant_noise.
Existing Instance Scenes.series_trig.

(** The bounds are attained: a noise that is 1 everywhere gives the
    height 1.75, one that is -1 everywhere gives -1.75. *)
Example run_height_of_plateau (x y : float) :
  generateHeight (plateau 1) x y = 1.75%float /\
  generateHeight (plateau (-1)) x y = (-1.75)%float.
Proof. split; reflexivity. Qed.

(** C9 on the closure of [makeNoise2D] (with [series_trig]), for the
    vertex [(1, 0)] of the quad (seed 7): its three samples lie in
    [-1, 1], and so does the height in [-1.75, 1.75]. *)
Lemma generateHeight_within_octave_sum_witness :
  let this := quad table_a flat_vertices in
  (in_unit (noise (noise_obj this)
              (lit 1 * lit 0.5 + seed this) (lit 0 * lit 0.5 + seed this)) /\
   in_unit (noise (noise_obj this)
              (lit 1 * lit 0.5 * lit 2 + seed this)
              (lit 0 * lit 0.5 * lit 2 + seed this)) /\
   in_unit (noise (noise_obj this)
              (lit 1 * lit 0.5 * lit 4 + seed this)
              (lit 0 * lit 0.5 * lit 4 + seed this)))%num /\
  in_octave_sum (generateHeight this (lit 1) (lit 0)).
Proof.
  intros this.
  assert (in_unit (noise (noise_obj this)
                     (lit 1 * lit 0.5 + seed this)
                     (lit 0 * lit 0.5 + seed this))%num) as H1
    by (split; vm_compute; reflexivity).
  assert (in_unit (noise (noise_obj this)
                     (lit 1 * lit 0.5 * lit 2 + seed this)
                     (lit 0 * lit 0.5 * lit 2 + seed this))%num) as H2
    by (split; vm_compute; reflexivity).
  assert (in_unit (noise (noise_obj this)
                     (lit 1 * lit 0.5 * lit 4 + seed this)
                     (lit 0 * lit 0.5 * lit 4 + seed this))%num) as H4
    by (split; vm_compute; reflexivity).
  split; [by repeat split|].
  exact (generateHeight_within_octave_sum this (lit 1) (lit 0) H1 H2 H4).
Defined.

End OctaveSumRuns.
(* ================================================================== *)
(** ** The draws of the shuffle on binary64 *)

Module ShuffleDraws.
Import SpecFloat FloatOps PrimFloat FloatAxioms IEEE IEEEFacts.
Import Binary64Vocabulary.
Import (hints) Binary64.
Open Scope Z_scope.

Section ScaledDraws.
Variable K : Z.
Hypothesis K_large : 1200 <= K.

(** A double below 1 is at most [1 - 2^-53]. *)
Lemma below_one_scaled (s : bool) (m : positive) (e : Z) :
  valid64 (S754_finite s m e) = true ->
  Z.pos m * 2 ^ (e + K) < 2 ^ K ->
  2 * (Z.pos m * 2 ^ (e + K)) <= 2 * 2 ^ K - 2 ^ (K - 52).
Proof using K_large.
  intros V Hlt.
  destruct (valid_finite _ _ _ V) as (He & Hd & _).
  destruct (digits2_pos_bounds m) as [_ Hhi].
  assert (Z.pos m < 2 ^ 53) as Hm.
  { eapply Z.lt_le_trans; [exact Hhi|]. apply pow2_le. lia. }
  assert (0 < 2 ^ (e + K)) as Hp by (apply pow2_pos; lia).
  assert (2 ^ K = 2 * 2 ^ (K - 1)) as HK1.
  { rewrite <- Z.pow_succ_r by lia; f_equal; lia. }
  assert (2 ^ (K - 1) = 2 ^ 51 * 2 ^ (K - 52)) as HK52.
  { rewrite <- pow2_add by lia; f_equal; lia. }
  assert (0 < 2 ^ (K - 52)) as Hp52 by (apply pow2_pos; lia).
  destruct (Z_lt_ge_dec e (-53)) as [Hsmall|Hbig].
  - (* below one half *)
    assert (2 ^ (e + K) * 2 ^ 54 <= 2 ^ K) as Hs.
    { rewrite <- pow2_add by lia. apply pow2_le. lia. }
    assert (Z.pos m * 2 ^ (e + K) <= 2 ^ 53 * 2 ^ (e + K)) as Hle by nia.
    change (2 ^ 54) with (2 * 2 ^ 53) in Hs.
    change (2 ^ 51) with 2251799813685248 in HK52. lia.
  - assert (e < 0) as Hneg.
    { destruct (Z_lt_ge_dec e 0) as [|Hge]; [done|].
      assert (2 ^ K <= 2 ^ (e + K)) by (apply pow2_le; lia). nia. }
    assert (2 ^ K = 2 ^ (- e) * 2 ^ (e + K)) as Hsplit.
    { rewrite <- pow2_add by lia; f_equal; lia. }
    assert (Z.pos m < 2 ^ (- e)) as Hm' by nia.
    assert (2 ^ (K - 52) <= 2 * 2 ^ (e + K)) as Hu.
    { rewrite <- Z.pow_succ_r by lia. apply pow2_le. lia. }
    assert ((Z.pos m + 1) * 2 ^ (e + K) <= 2 ^ (- e) * 2 ^ (e + K)) as Hstep
      by (apply Z.mul_le_mono_nonneg_r; lia).
    lia.
Qed.

(** Rounding a value that is at most [N (1 - 2^-53)] gives a double below
    [N]. *)
Lemma round_below (s : bool) (M e N : Z) :
  0 < M -> 0 <= e + K -> 1 <= N <= 256 ->
  2 * (M * 2 ^ (e + K)) <= N * (2 * 2 ^ K - 2 ^ (K - 52)) ->
  magnitude_le K (N * 2 ^ K - 1) (binary_round_aux prec emax s M e loc_Exact).
Proof using K_large.
  intros HM He HN Hle.
  destruct (binary_round_aux_upper s M e K HM He)
    as (m2 & e2 & -> & Hm2 & He2 & Hexact & Hround).
  set (t := fexp prec emax (Zdigits2 M + e)) in *.
  assert (0 < 2 ^ (K - 52)) as Hp52 by (apply pow2_pos; lia).
  assert (0 < 2 ^ K) as HpK by (apply pow2_pos; lia).
  assert (2 ^ K = 2 ^ 52 * 2 ^ (K - 52)) as HK52.
  { rewrite <- pow2_add by lia; f_equal; lia. }
  assert (0 < 2 ^ (e + K)) as Hpe by (apply pow2_pos; lia).
  assert (m2 * 2 ^ (e2 + K) < N * 2 ^ K) as Hlt.
  { destruct (Z_le_gt_dec t e) as [Hte|Hte].
    - specialize (Hexact Hte). nia.
    - destruct (Hround ltac:(lia)) as [Hhalf _].
      assert (2 ^ (t + K) * 2 ^ 52 <= Z.max (M * 2 ^ (e + K)) (2 ^ (K - 1022)))
        as Hunit.
      { unfold t, fexp, emin, emax, prec.
        destruct M as [|m|m]; try lia. cbn [Zdigits2].
        destruct (digits2_pos_bounds m) as [Hlo _].
        assert (0 < Z.pos (digits2_pos m)) by lia.
        destruct (Z.max_spec (Z.pos (digits2_pos m) + e - 53) (3 - 1024 - 53))
          as [[Hmax ->]|[Hmax ->]].
        - rewrite <- pow2_add by lia.
          replace (3 - 1024 - 53 + K + 52) with (K - 1022) by lia.
          apply Z.le_max_r.
        - rewrite <- pow2_add by lia.
          replace (Z.pos (digits2_pos m) + e - 53 + K + 52)
            with (Z.pos (digits2_pos m) - 1 + (e + K)) by lia.
          rewrite pow2_add by lia.
          etransitivity; [|apply Z.le_max_l].
          apply Z.mul_le_mono_nonneg_r; lia. }
      assert (2 ^ (K - 1022) < 2 ^ K) by (apply pow2_lt; lia).
      assert (0 <= 2 ^ (t + K)) by (apply Z.pow_nonneg; lia).
      change (2 ^ 52) with 4503599627370496 in *.
      nia. }
  unfold round_result.
  destruct m2 as [|m|m]; [done| |lia].
  assert (0 <= e2 + K) by lia.
  assert (0 < 2 ^ (e2 + K)) by (apply pow2_pos; lia).
  assert (2 ^ (e2 + K) < 2 ^ (K + 8)) as Hpow.
  { rewrite (pow2_add K 8) by lia. change (2 ^ 8) with 256. nia. }
  apply pow2_lt_inv in Hpow; [|lia].
  replace (e2 <=? emax - prec) with true
    by (symmetry; apply Z.leb_le; unfold emax, prec; lia).
  cbn [magnitude_le]. lia.
Qed.

(** The product of the double of an integer [N] in [1 .. 256] and a double
    below 1 is a double below [N]. *)
Lemma SFmul_below (mn mr : positive) (en er N : Z) :
  valid64 (S754_finite false mr er) = true ->
  -52 <= en <= 0 -> 1 <= N <= 256 ->
  Z.pos mn = N * 2 ^ (- en) ->
  Z.pos mr * 2 ^ (er + K) < 2 ^ K ->
  magnitude_le K (N * 2 ^ K - 1)
    (SFmul prec emax (S754_finite false mn en) (S754_finite false mr er)).
Proof using K_large.
  intros Vr Hen HN Hmn Hr. cbn [SFmul xorb].
  destruct (valid_finite _ _ _ Vr) as (Her & _).
  assert (Hone := below_one_scaled _ _ _ Vr Hr).
  apply round_below; [lia|lia|done|].
  rewrite Pos2Z.inj_mul, Hmn.
  assert (2 ^ (en + er + K) * 2 ^ (- en) = 2 ^ (er + K)) as Hsplit.
  { rewrite <- pow2_add by lia; f_equal; lia. }
  replace (N * 2 ^ (- en) * Z.pos mr * 2 ^ (en + er + K))
    with (N * (Z.pos mr * (2 ^ (en + er + K) * 2 ^ (- en)))) by ring.
  rewrite Hsplit.
  replace (2 * (N * (Z.pos mr * 2 ^ (er + K))))
    with (N * (2 * (Z.pos mr * 2 ^ (er + K)))) by ring.
  apply Z.mul_le_mono_nonneg_l; lia.
Qed.

(** A double in [0, 1) is a zero, or positive and below 1. *)
Lemma half_open_unit_shape (r : float) :
  in_half_open_unit r ->
  (exists s : bool, Prim2SF r = S754_zero s) \/
  (exists (m : positive) (e : Z),
     Prim2SF r = S754_finite false m e /\ Z.pos m * 2 ^ (e + K) < 2 ^ K).
Proof using K_large.
  intros [Hlo Hhi]. rewrite leb_spec in Hlo. rewrite ltb_spec in Hhi.
  assert (Vr := Prim2SF_valid r).
  change (Prim2SF 0) with (S754_zero false) in Hlo.
  change (Prim2SF 1) with (S754_finite false 4503599627370496 (-52)) in Hhi.
  destruct (Prim2SF r) as [s|s| |s m e]; try done.
  - left. by exists s.
  - by destruct s.
  - destruct s; [done|]. right. exists m, e. split; [done|].
    unfold SFltb in Hhi.
    rewrite (SFcompare_magnitudes K K_large false m 4503599627370496 e (-52)
               Vr eq_refl) in Hhi.
    destruct (Z.compare_spec (Z.pos m * 2 ^ (e + K))
                (4503599627370496 * 2 ^ (-52 + K))) as [|Hlt|]; try done.
    eapply Z.lt_le_trans; [exact Hlt|].
    change 4503599627370496 with (2 ^ 52).
    rewrite <- pow2_add by lia. apply pow2_le. lia.
Qed.

End ScaledDraws.

(** The doubles of the integers [2 .. 256]. *)
Lemma of_nat_exact (n : nat) :
  (2 <= n <= 256)%nat ->
  exists (m : positive) (e : Z),
    Prim2SF (of_nat n) = S754_finite false m e /\
    -52 <= e <= 0 /\ Z.pos m = Z.of_nat n * 2 ^ (- e).
Proof.
  intros Hn.
  assert (forallb
            (fun n : nat =>
               match Prim2SF (of_nat n) with
               | S754_finite false m e =>
                   (-52 <=? e) && (e <=? 0)
                   && (Z.pos m =? Z.of_nat n * 2 ^ (- e))
               | _ => false
               end) (seq 2 255) = true) as Hall
    by (vm_compute; reflexivity).
  rewrite forallb_forall in Hall.
  specialize (Hall n ltac:(apply in_seq; lia)).
  destruct (Prim2SF (of_nat n)) as [| | |[] m e]; try done.
  apply andb_prop in Hall as [Hall Hm]. apply andb_prop in Hall as [H1 H2].
  exists m, e. rewrite Z.leb_le in H1, H2. rewrite Z.eqb_eq in Hm. done.
Qed.

(** The doubles of the integers [0 .. 255] are subscripts. *)
Lemma index_of_small (z : Z) :
  0 <= z <= 255 ->
  Binary64.index_of (Binary64.of_Z z) = Some (Z.to_nat z).
Proof.
  intros Hz.
  assert (forallb
            (fun k : nat =>
               match Binary64.index_of (Binary64.of_Z (Z.of_nat k)) with
               | Some j => Nat.eqb j k
               | None => false
               end) (seq 0 256) = true) as Hall
    by (vm_compute; reflexivity).
  rewrite forallb_forall in Hall.
  specialize (Hall (Z.to_nat z) ltac:(apply in_seq; lia)).
  rewrite Z2Nat.id in Hall by lia.
  destruct (Binary64.index_of (Binary64.of_Z z)) as [j|]; [|done].
  apply Nat.eqb_eq in Hall. by subst j.
Qed.

(** A draw in [0, 1), scaled by [i + 1] and floored, is an index in
    [0 .. i]. *)
Lemma draw_index (i : nat) (r : float) :
  (1 <= i <= 255)%nat -> in_half_open_unit r ->
  exists k : nat,
    toIndex (Math_floor (nmul (of_nat (i + 1)) r)) = Some k /\ (k <= i)%nat.
Proof.
  intros Hi Hr.
  cbn [toIndex Math_floor nmul Binary64.float_Number Binary64.float_Math
         Binary64.float_Coercions].
  set (K := 1200).
  assert (1200 <= K) as HK by (unfold K; lia). clearbody K.
  destruct (of_nat_exact (i + 1) ltac:(lia)) as (mn & en & Hn & Hen & Hmn).
  set (x := (of_nat (i + 1) * r)%float).
  assert (magnitude_le K (Z.of_nat (i + 1) * 2 ^ K - 1) (Prim2SF x)
          /\ (forall m e, Prim2SF x <> S754_finite true m e)) as [Hx Hsign].
  { unfold x. rewrite mul_spec, Hn. unfold SF64mul.
    destruct (half_open_unit_shape K HK r Hr) as [[s Hz]|(m & e & Hf & Hlt)].
    - rewrite Hz. cbn [SFmul magnitude_le]. done.
    - assert (Vr := Prim2SF_valid r). rewrite Hf in *. split.
      + apply SFmul_below; try done; lia.
      + intros m' e'. cbn [SFmul xorb].
        destruct (binary_round_aux_upper false (Z.pos (mn * m)) (en + e) K
                    ltac:(lia)
                    ltac:(destruct (valid_finite _ _ _ Vr); lia))
          as (m2 & e2 & -> & _).
        unfold round_result. destruct m2; [done| |done].
        by destruct (e2 <=? emax - prec). }
  assert (0 < 2 ^ K) as HpK by (apply pow2_pos; lia).
  unfold Binary64.floor.
  assert (Vx := Prim2SF_valid x).
  destruct (Prim2SF x) as [s|s| |s m e] eqn:Hsf; try done.
  - (* a zero *)
    exists 0%nat. split; [|lia].
    unfold Binary64.index_of, Binary64.to_Z. by rewrite Hsf.
  - destruct s; [by destruct (Hsign m e)|].
    cbn [magnitude_le] in Hx.
    destruct (valid_finite _ _ _ Vx) as (Hex & _).
    destruct (e <? 0) eqn:He.
    + apply Z.ltb_lt in He.
      set (z := Z.pos m / 2 ^ (- e)).
      assert (0 < 2 ^ (- e)) as Hpe by (apply pow2_pos; lia).
      assert (0 <= z) by (apply Z.div_pos; lia).
      assert (z * 2 ^ (- e) <= Z.pos m) as Hz
        by (unfold z; rewrite Z.mul_comm; apply Z.mul_div_le; lia).
      assert (2 ^ K = 2 ^ (- e) * 2 ^ (e + K)) as Hsplit.
      { rewrite <- pow2_add by lia; f_equal; lia. }
      assert (0 < 2 ^ (e + K)) by (apply pow2_pos; lia).
      assert (z < Z.of_nat (i + 1)) as Hlt by nia.
      exists (Z.to_nat z). split; [|lia].
      apply index_of_small. lia.
    + apply Z.ltb_ge in He.
      assert (2 ^ (e + K) = 2 ^ e * 2 ^ K) as Hsplit by (apply pow2_add; lia).
      assert (0 < 2 ^ e) by (apply pow2_pos; lia).
      assert (Z.pos m * 2 ^ e < Z.of_nat (i + 1)) as Hlt by nia.
      exists (Z.to_nat (Z.pos m * 2 ^ e)). split; [|lia].
      unfold Binary64.index_of, Binary64.to_Z. rewrite Hsf.
      replace (0 <=? e) with true by (symmetry; apply Z.leb_le; lia).
      replace (0 <=? Z.pos m * 2 ^ e) with true
        by (symmetry; apply Z.leb_le; lia).
      done.
Qed.

End ShuffleDraws.

(* ================================================================== *)
(** ** The permutation table *)

Section PermTable.
Import (hints) Binary64.
Import PrimFloat Binary64Vocabulary Scenes.

Lemma random_b_in_unit (k : nat) : in_half_open_unit (random_b k).
Proof.
  unfold random_b.
  assert (forallb
            (fun j : nat =>
               let r : float := lit (inject_Z (Z.of_nat j) / 64) in
               PrimFloat.leb 0 r && PrimFloat.ltb r 1) (seq 0 64) = true)
    as Hall by (vm_compute; reflexivity).
  rewrite forallb_forall in Hall.
  specialize (Hall ((k * 11 + 5) mod 64)).
  apply andb_prop in Hall as [Hlo Hhi]; [done|].
  apply in_seq. assert (Hm := Nat.mod_upper_bound (k * 11 + 5) 64). lia.
Qed.

(** C7.  The [perm] table of [makeNoise2D] has 512 entries, each in
    [0, 255]; its first 256 entries are a permutation of [0 .. 255], the
    last 256 repeat them, and every value of [0 .. 255] occurs exactly
    twice: in every number system, when every draw of the random source,
    scaled by [i + 1] and floored, is an index in [0 .. i]; and on the
    doubles of the program, for every random source with values in
    [0, 1), as [Math.random] is. *)
Theorem makeNoise2D_perm_table :
  (forall (num : Type) (N : Number num) (M : MathObject num)
          (C : Coercions num) (random : nat -> num),
     (forall i : nat, 1 <= i <= 255 -> draw_in_range random i) ->
     is_perm_table (perm (makeNoise2D random))) /\
  (forall random : nat -> float,
     (forall k : nat, in_half_open_unit (random k)) ->
     is_perm_table (perm (makeNoise2D random))).
Proof.
  split.
  - intros num N M C random Hdraws. by apply perm_table_of_draws.
  - intros random Hunit. apply perm_table_of_draws.
    intros i Hi. apply ShuffleDraws.draw_index; [lia|apply Hunit].
Qed.

(** C7 on the sources [random_a], whose draws are checked one by one, and
    [random_b], whose values lie in [0, 1). *)
Lemma makeNoise2D_perm_table_witness :
  (forall i : nat, 1 <= i <= 255 -> draw_in_range random_a i) /\
  is_perm_table (perm (makeNoise2D random_a)) /\
  (forall k : nat, in_half_open_unit (random_b k)) /\
  is_perm_table (perm (makeNoise2D random_b)).
Proof.
  assert (forall i : nat, 1 <= i <= 255 -> draw_in_range random_a i) as Hdraws.
  { apply draws_checked. vm_compute. reflexivity. }
  split; [exact Hdraws|].
  split; [exact (proj1 makeNoise2D_perm_table _ _ _ _ random_a Hdraws)|].
  split; [exact random_b_in_unit|].
  exact (proj2 makeNoise2D_perm_table random_b random_b_in_unit).
Defined.

End PermTable.
(* ================================================================== *)
(** * More properties *)

(** ** Regenerations and the construction of the terrain *)

Section MoreTerrain.
Context {T num : Type}.
Context `{Number num} `{Coercions num} `{Three num} `{NoiseObject T num}.

Local Abbreviation App := (TopographicalMap T num).

(** The height function reads the noise object and the seed of the map,
    nothing else. *)
Lemma generateHeight_reads (this1 this2 : App) (x y : num) :
  noise_obj this1 = noise_obj this2 -> seed this1 = seed this2 ->
  generateHeight this1 x y = generateHeight this2 x y.
Proof. intros Hn Hs. unfold generateHeight. by rewrite Hn, Hs. Qed.

Lemma mod_3_offset (j : nat) :
  j mod 3 = 2 -> exists i : nat, j = i + 2 /\ i mod 3 = 0.
Proof.
  intros Hj. exists (j - 2).
  assert (Hd := Nat.Div0.div_mod j 3). split; [lia|].
  replace (j - 2) with (j / 3 * 3) by lia. apply Nat.Div0.mod_mul.
Qed.

(** A [z] entry after the loop of [updateTerrain] over the whole buffer. *)
Lemma heights_z_whole (this : App) (vertices : list num) (i : nat) :
  i mod 3 = 0 ->
  heights this vertices (for_indices 0 3 (length vertices)) !! (i + 2)
  = (fun _ => fround (generateHeight this (to_num (vertices !! i))
                                     (to_num (vertices !! (i + 1)))))
    <$> vertices !! (i + 2).
Proof.
  intros Hi. rewrite heights_z by (apply for_indices_3_mod || done).
  destruct (decide (i ∈ for_indices 0 3 (length vertices))) as [|Hout]; [done|].
  rewrite elem_of_for_indices_3 in Hout.
  rewrite lookup_ge_None_2 by lia. done.
Qed.

(** Two passes of the loop give the same buffer when the maps have the
    same noise object and seed and the buffers the same [x] and [y]. *)
Lemma heights_agree (this1 this2 : App) (v1 v2 : list num) :
  noise_obj this1 = noise_obj this2 -> seed this1 = seed this2 ->
  length v1 = length v2 ->
  (forall j, j mod 3 <> 2 -> v1 !! j = v2 !! j) ->
  heights this1 v1 (for_indices 0 3 (length v1))
  = heights this2 v2 (for_indices 0 3 (length v2)).
Proof.
  intros Hn Hs Hlen Hxy. apply list_eq. intros j.
  destruct (decide (j mod 3 = 2)) as [Hj|Hj].
  - destruct (mod_3_offset j Hj) as (i & -> & Hi).
    rewrite !heights_z_whole by done.
    rewrite (Hxy i) by lia.
    rewrite (Hxy (i + 1))
      by (rewrite <- Nat.Div0.add_mod_idemp_l, Hi; done).
    rewrite (generateHeight_reads this1 this2) by done.
    destruct (decide (i + 2 < length v1)) as [Hlt|Hge].
    + destruct (lookup_lt_is_Some_2 v1 (i + 2) Hlt) as [z1 ->].
      destruct (lookup_lt_is_Some_2 v2 (i + 2)) as [z2 ->]; [lia|]. done.
    + rewrite (lookup_ge_None_2 v1 (i + 2)) by lia.
      rewrite (lookup_ge_None_2 v2 (i + 2)) by lia. done.
  - rewrite !heights_frame by (apply for_indices_3_mod || done). by apply Hxy.
Qed.

(** A buffer the loop has filled is left as it is by another pass with
    the same noise object and seed. *)
Lemma heights_fixed (this this' : App) (vertices : list num) :
  noise_obj this' = noise_obj this -> seed this' = seed this ->
  let filled := heights this vertices (for_indices 0 3 (length vertices)) in
  heights this' filled (for_indices 0 3 (length filled)) = filled.
Proof.
  intros Hn Hs filled. apply list_eq. intros j.
  assert (forall k, k mod 3 <> 2 -> filled !! k = vertices !! k) as Hframe.
  { intros k Hk. apply heights_frame; [apply for_indices_3_mod|done]. }
  destruct (decide (j mod 3 = 2)) as [Hj|Hj].
  - destruct (mod_3_offset j Hj) as (i & -> & Hi).
    rewrite heights_z_whole by done.
    rewrite (Hframe i) by lia.
    rewrite (Hframe (i + 1))
      by (rewrite <- Nat.Div0.add_mod_idemp_l, Hi; done).
    rewrite (generateHeight_reads this' this) by done.
    unfold filled. rewrite heights_z_whole by done.
    by destruct (vertices !! (i + 2)).
  - rewrite heights_frame by (apply for_indices_3_mod || done). done.
Qed.

Lemma updateTerrain_position (this : App) :
  position (updateTerrain this)
  = heights this (position this) (for_indices 0 3 (length (position this))).
Proof. done. Qed.

Lemma generateNewMap_position (r : num) (this : App) :
  position (generateNewMap r this)
  = heights (mkMap (camera this) (noise_obj this) (nmul r (lit 1000))
                   (position this) (needsUpdate this) (index this)
                   (matrixWorld this))
            (position this) (for_indices 0 3 (length (position this))).
Proof. done. Qed.

(** A new map is the same from two maps that differ in their seed, their
    depths ([z] entries) and their upload flag only. *)
Lemma generateNewMap_agree (r : num) (this1 this2 : App) :
  camera this1 = camera this2 -> noise_obj this1 = noise_obj this2 ->
  index this1 = index this2 -> matrixWorld this1 = matrixWorld this2 ->
  length (position this1) = length (position this2) ->
  (forall j, j mod 3 <> 2 -> position this1 !! j = position this2 !! j) ->
  generateNewMap r this1 = generateNewMap r this2.
Proof.
  intros Hc Hn Hi Hm Hl Hxy.
  assert (position (generateNewMap r this1) = position (generateNewMap r this2))
    as Hpos.
  { rewrite !generateNewMap_position. by apply heights_agree. }
  unfold generateNewMap, updateTerrain in *. simpl in *.
  rewrite Hpos. by rewrite Hc, Hn, Hi, Hm.
Qed.

Lemma regenerate_frame (this : App) (c : Regeneration) :
  camera (regenerate this c) = camera this /\
  noise_obj (regenerate this c) = noise_obj this /\
  index (regenerate this c) = index this /\
  matrixWorld (regenerate this c) = matrixWorld this /\
  length (position (regenerate this c)) = length (position this) /\
  (forall j, j mod 3 <> 2 ->
     position (regenerate this c) !! j = position this !! j).
Proof.
  destruct c as [|r]; simpl.
  - destruct (updateTerrain_frame this) as (? & ? & ? & ? & _ & ? & ?). done.
  - destruct (generateNewMap_frame r this) as (? & ? & ? & ? & ? & ?). done.
Qed.

Lemma generateNewMap_after (r : num) (cs : list Regeneration) (this : App) :
  generateNewMap r (foldl regenerate this cs) = generateNewMap r this.
Proof.
  revert this. induction cs as [|c cs IH]; intros this; simpl; [done|].
  rewrite IH.
  destruct (regenerate_frame this c) as (? & ? & ? & ? & ? & ?).
  by apply generateNewMap_agree.
Qed.

(** X1.  [updateTerrain()] is idempotent: the heights it writes depend on
    the [x] and [y] of the vertices, the noise object and the seed, none
    of which it changes, so a second call changes nothing (for a buffer
    of any length, whole vertices or not). *)
Theorem updateTerrain_idempotent (this : App) :
  updateTerrain (updateTerrain this) = updateTerrain this.
Proof.
  assert (position (updateTerrain (updateTerrain this))
          = position (updateTerrain this)) as Hpos.
  { rewrite (updateTerrain_position (updateTerrain this)).
    rewrite (updateTerrain_position this).
    by apply heights_fixed. }
  unfold updateTerrain in *. simpl in *. by rewrite Hpos.
Qed.

(** X2.  A new map forgets the history: after any sequence of
    regenerations, [generateNewMap()] leaves the map exactly as it would
    have from the start with the same draw; and an [updateTerrain()] after
    it changes nothing.  The terrain is a function of the grid, the noise
    object and the last draw. *)
Theorem generateNewMap_forgets_history (r : num) (cs : list Regeneration)
    (this : App) :
  generateNewMap r (foldl regenerate this cs) = generateNewMap r this /\
  updateTerrain (generateNewMap r this) = generateNewMap r this.
Proof.
  split; [apply generateNewMap_after|].
  assert (position (updateTerrain (generateNewMap r this))
          = position (generateNewMap r this)) as Hpos.
  { rewrite updateTerrain_position, generateNewMap_position.
    by apply heights_fixed. }
  unfold generateNewMap, updateTerrain in *. simpl in *. by rewrite Hpos.
Qed.

(** X3.  [createTerrain()] sets the seed to [Math.random() * 1000], keeps
    the [x] and [y] of every vertex of the plane and its index list, and
    writes as [z] of every whole vertex the rounded [generateHeight] of its
    [x] and [y]; a later [generateNewMap()], after any regenerations,
    gives the buffer that the construction with its draw would have
    given. *)
Theorem createTerrain_heights (cam : Camera) (noise_object : T) (r : num)
    (geometry : BufferGeometry num) (world : Matrix4) :
  let this := createTerrain cam noise_object r geometry world in
  seed this = nmul r (lit 1000) /\
  index this = geometry_index geometry /\
  length (position this) = length (attributes_position geometry) /\
  (forall k : nat,
     position this !! (k * 3) = attributes_position geometry !! (k * 3) /\
     position this !! (k * 3 + 1)
     = attributes_position geometry !! (k * 3 + 1) /\
     position this !! (k * 3 + 2)
     = (fun _ => fround (generateHeight this
                           (to_num (attributes_position geometry !! (k * 3)))
                           (to_num (attributes_position geometry
                                      !! (k * 3 + 1)))))
       <$> attributes_position geometry !! (k * 3 + 2)) /\
  (forall (r' : num) (cs : list Regeneration),
     position (generateNewMap r' (foldl regenerate this cs))
     = position (createTerrain cam noise_object r' geometry world)).
Proof.
  intros this.
  set (start := mkMap cam noise_object (nmul r (lit 1000))
                      (attributes_position geometry) false
                      (geometry_index geometry) world).
  assert (position this
          = heights start (attributes_position geometry)
              (for_indices 0 3 (length (attributes_position geometry))))
    as Hpos by done.
  split; [done|]. split; [done|].
  split; [rewrite Hpos; apply length_heights|].
  split.
  - intros k.
    assert ((k * 3) mod 3 = 0) as Hk by apply Nat.Div0.mod_mul.
    rewrite Hpos. split; [|split].
    + apply heights_frame; [apply for_indices_3_mod|lia].
    + apply heights_frame; [apply for_indices_3_mod|].
      rewrite <- Nat.Div0.add_mod_idemp_l, Hk. done.
    + rewrite heights_z_whole by done.
      destruct (attributes_position geometry !! (k * 3 + 2)); [|done].
      simpl. do 2 f_equal.
  - intros r' cs. rewrite generateNewMap_after.
    rewrite generateNewMap_position.
    change (position (createTerrain cam noise_object r' geometry world))
      with (heights (mkMap cam noise_object (nmul r' (lit 1000))
                           (attributes_position geometry) false
                           (geometry_index geometry) world)
                    (attributes_position geometry)
                    (for_indices 0 3 (length (attributes_position geometry)))).
    apply heights_agree; try done.
    + rewrite Hpos. apply length_heights.
    + intros j Hj. rewrite Hpos.
      apply heights_frame; [apply for_indices_3_mod|done].
Qed.

End MoreTerrain.

(* ================================================================== *)
(** ** The exception of [generateSVG] *)

Section MoreVisibility.
Context {num : Type} `{Number num}.
Open Scope num_scope.

(** The test throws exactly when it reads the depth of a missing point. *)
Lemma isTriangleVisible_js_Throw (a b c : option (ProjectedPoint num))
    (e : JSError) :
  isTriangleVisible_js a b c = Throw e <->
  a = None \/
  (exists a', a = Some a' /\ (pz a' <? lit 1) = true /\ b = None) \/
  (exists a' b',
     a = Some a' /\ (pz a' <? lit 1) = true /\
     b = Some b' /\ (pz b' <? lit 1) = true /\ c = None).
Proof.
  unfold isTriangleVisible_js. destruct e. split.
  - destruct a as [a'|]; simpl; [|by left].
    destruct (pz a' <? lit 1) eqn:Ha; [|done].
    destruct b as [b'|]; simpl; [|right; left; by exists a'].
    destruct (pz b' <? lit 1) eqn:Hb; [|done].
    destruct c as [c'|]; simpl; [done|].
    right; right. by exists a', b'.
  - intros [->|[(a' & -> & Ha & ->)|(a' & b' & -> & Ha & -> & Hb & ->)]];
      simpl; [done| |]; rewrite Ha; simpl; [done|]. by rewrite Hb.
Qed.

(** The test reads the depths of the points and nothing else of them. *)
Lemma isTriangleVisible_js_depths
    (a b c a' b' c' : option (ProjectedPoint num)) :
  pz <$> a = pz <$> a' -> pz <$> b = pz <$> b' -> pz <$> c = pz <$> c' ->
  isTriangleVisible_js a b c = isTriangleVisible_js a' b' c'.
Proof.
  intros Ha Hb Hc. unfold isTriangleVisible_js.
  destruct a as [a1|], a' as [a2|]; simplify_eq/=; [|done].
  rewrite Ha. destruct (pz a2 <? lit 1); [|done].
  destruct b as [b1|], b' as [b2|]; simplify_eq/=; [|done].
  rewrite Hb. destruct (pz b2 <? lit 1); [|done].
  destruct c as [c1|], c' as [c2|]; simplify_eq/=; [|done].
  by rewrite Hc.
Qed.

End MoreVisibility.

Section MoreEmission.
Context {T num : Type}.
Context `{Number num} `{NumberToString num} `{Three num}.

Local Abbreviation App := (TopographicalMap T num).

(** The loop throws exactly when the test of one of its triangles does. *)
Lemma svg_loop_Throw (points : list (ProjectedPoint num))
    (indices : list nat) (ks : list nat) (paths : string) (e : JSError) :
  svg_loop points indices paths ((fun k => k * 3) <$> ks) = Throw e <->
  exists k, k ∈ ks /\
    isTriangleVisible_js (point_at points indices (k * 3))
                         (point_at points indices (k * 3 + 1))
                         (point_at points indices (k * 3 + 2)) = Throw e.
Proof.
  revert paths. induction ks as [|k ks IH]; intros paths; simpl.
  - split; [done|]. intros (k & Hk & _). by apply elem_of_nil in Hk.
  - rewrite svg_step_outline. unfold triangle.
    destruct (isTriangleVisible_js _ _ _) as [v|e'] eqn:Hv; simpl.
    + rewrite IH. split.
      * intros (k' & Hk' & Hthrow). exists k'.
        split; [by apply list_elem_of_further|done].
      * intros (k' & Hk' & Hthrow).
        apply elem_of_cons in Hk' as [->|Hk'].
        -- rewrite Hv in Hthrow. done.
        -- by exists k'.
    + split.
      * intros [= ->]. exists k. split; [apply list_elem_of_here|done].
      * intros _. by destruct e, e'.
Qed.

Lemma generateSVG_Throw (innerWidth innerHeight : num) (this : App)
    (points : list (ProjectedPoint num)) (e : JSError) :
  generateSVG innerWidth innerHeight this points = Throw e <->
  exists k, k < iterations 0 3 (length (index this)) /\
    isTriangleVisible_js (point_at points (index this) (k * 3))
                         (point_at points (index this) (k * 3 + 1))
                         (point_at points (index this) (k * 3 + 2))
    = Throw e.
Proof.
  unfold generateSVG. rewrite for_indices_complete by lia.
  destruct (svg_loop points (index this) "" _) as [paths|e'] eqn:Hloop;
    cbn [bind].
  - split; [done|]. intros (k & Hk & Hthrow).
    assert (svg_loop points (index this) ""
              ((fun k => k * 3)
                 <$> seq 0 (iterations 0 3 (length (index this))))
            = Throw e) as Hloop'.
    { apply svg_loop_Throw. exists k. split; [|done].
      apply elem_of_seq. lia. }
    rewrite Hloop in Hloop'. done.
  - apply svg_loop_Throw in Hloop as (k & Hk & Hthrow).
    apply elem_of_seq in Hk. split.
    + intros [= ->]. exists k. split; [lia|done].
    + intros _. by destruct e, e'.
Qed.

(** X4.  [generateSVG] throws (a [TypeError]) exactly when the test of
    some triangle reads the depth of a point that is not there: the first
    point of the triangle is missing, or the first is in front of the far
    plane and the second is missing, or the first two are in front of it
    and the third is missing.  A point behind the far plane hides the
    missing points after it. *)
Theorem generateSVG_throws_iff (innerWidth innerHeight : num) (this : App)
    (points : list (ProjectedPoint num)) :
  generateSVG innerWidth innerHeight this points = Throw TypeError <->
  exists k : nat,
    k < iterations 0 3 (length (index this)) /\
    reads_missing_point points (index this) (k * 3).
Proof.
  rewrite generateSVG_Throw. unfold reads_missing_point.
  split; intros (k & Hk & Hthrow); exists k; (split; [done|]).
  - apply isTriangleVisible_js_Throw in Hthrow. exact Hthrow.
  - apply isTriangleVisible_js_Throw. exact Hthrow.
Qed.

Lemma point_at_app (points more : list (ProjectedPoint num))
    (indices : list nat) (i : nat) (a : ProjectedPoint num) :
  point_at points indices i = Some a ->
  point_at (points ++ more) indices i = Some a.
Proof.
  unfold point_at. destruct (indices !! i) as [v|]; [|done].
  apply lookup_app_l_Some.
Qed.

Lemma svg_step_app (points more : list (ProjectedPoint num))
    (indices : list nat) (paths paths' : string) (i : nat) :
  svg_step points indices paths i = Ok paths' ->
  svg_step (points ++ more) indices paths i = Ok paths'.
Proof.
  unfold svg_step, isTriangleVisible_js.
  destruct (point_at points indices i) as [a|] eqn:Ha; [|done].
  rewrite (point_at_app _ more _ _ _ Ha). simpl.
  destruct (nlt (pz a) (lit 1)); [|done].
  destruct (point_at points indices (i + 1)) as [b|] eqn:Hb; [|done].
  rewrite (point_at_app _ more _ _ _ Hb). simpl.
  destruct (nlt (pz b) (lit 1)); [|done].
  destruct (point_at points indices (i + 2)) as [c|] eqn:Hc; [|done].
  rewrite (point_at_app _ more _ _ _ Hc). done.
Qed.

(** X5.  Points the index list does not name are never read: when
    [generateSVG(points)] returns a document, it returns the same
    document for [points] followed by any other points. *)
Theorem generateSVG_more_points (innerWidth innerHeight : num) (this : App)
    (points more : list (ProjectedPoint num)) (doc : string) :
  generateSVG innerWidth innerHeight this points = Ok doc ->
  generateSVG innerWidth innerHeight this (points ++ more) = Ok doc.
Proof.
  unfold generateSVG.
  assert (forall todo paths paths',
            svg_loop points (index this) paths todo = Ok paths' ->
            svg_loop (points ++ more) (index this) paths todo = Ok paths')
    as Hloop.
  { induction todo as [|i todo IH]; intros paths paths'; simpl; [done|].
    destruct (svg_step points (index this) paths i) as [p|] eqn:Hstep;
      [|done].
    rewrite (svg_step_app _ more _ _ _ _ Hstep). simpl. apply IH. }
  destruct (svg_loop points (index this) "" _) as [paths|] eqn:Hl; [|done].
  rewrite (Hloop _ _ _ Hl). done.
Qed.

(** X6.  The size of the window decides no depth: the projected points
    of two window sizes have the same [z], so the same triangles pass the
    visibility test, the documents have the same number of path groups,
    and the export throws for one size exactly when it does for the
    other. *)
Theorem exportSVG_window_size (w h w' h' : num) (this : App) :
  pz <$> projectToSVG w h this = pz <$> projectToSVG w' h' this /\
  (forall k : nat,
     accepted (projectToSVG w h this) (index this) k
     = accepted (projectToSVG w' h' this) (index this) k) /\
  length (outlines (projectToSVG w h this) (index this))
  = length (outlines (projectToSVG w' h' this) (index this)) /\
  (forall e : JSError,
     exportSVG w h this = Throw e <-> exportSVG w' h' this = Throw e).
Proof.
  assert (pz <$> projectToSVG w h this = pz <$> projectToSVG w' h' this)
    as Hz.
  { rewrite !projectToSVG_map, <- !list_fmap_compose. done. }
  assert (forall i,
            pz <$> point_at (projectToSVG w h this) (index this) i
            = pz <$> point_at (projectToSVG w' h' this) (index this) i)
    as Hpt.
  { intros i. unfold point_at. destruct (index this !! i) as [v|]; [|done].
    rewrite <- !list_lookup_fmap. by rewrite Hz. }
  assert (forall k,
            accepted (projectToSVG w h this) (index this) k
            = accepted (projectToSVG w' h' this) (index this) k) as Hacc.
  { intros k. unfold accepted, triangle.
    by rewrite (isTriangleVisible_js_depths _ _ _ _ _ _
                  (Hpt (k * 3)) (Hpt (k * 3 + 1)) (Hpt (k * 3 + 2))). }
  split; [exact Hz|]. split; [exact Hacc|]. split.
  - unfold outlines. rewrite !length_outlines_filter.
    f_equal. apply list_filter_iff. intros k. by rewrite Hacc.
  - intros e. unfold exportSVG. rewrite !generateSVG_Throw.
    split; intros (k & Hk & Hthrow); exists k; (split; [done|]).
    + by rewrite <- (isTriangleVisible_js_depths _ _ _ _ _ _
                       (Hpt (k * 3)) (Hpt (k * 3 + 1)) (Hpt (k * 3 + 2))).
    + by rewrite (isTriangleVisible_js_depths _ _ _ _ _ _
                    (Hpt (k * 3)) (Hpt (k * 3 + 1)) (Hpt (k * 3 + 2))).
Qed.

End MoreEmission.

(* ================================================================== *)
(** ** Export after regenerations *)

Section ExportAfterRegeneration.
Context {T num : Type}.
Context `{Number num} `{Coercions num} `{NumberToString num} `{Three num}
        `{NoiseObject T num}.

Local Abbreviation App := (TopographicalMap T num).

Lemma regenerations_frame (cs : list Regeneration) (this : App) :
  index (foldl regenerate this cs) = index this /\
  length (position (foldl regenerate this cs)) = length (position this).
Proof.
  revert this. induction cs as [|c cs IH]; intros this; simpl; [done|].
  destruct (IH (regenerate this c)) as [-> ->].
  destruct (regenerate_frame this c) as (_ & _ & ? & _ & ? & _). done.
Qed.

(** X7.  A mesh whose index list is made of whole triangles over its
    vertices can be exported after any sequence of regenerations: the
    export returns a document (it never throws), with one path group per
    triangle that passes the visibility test, whatever the new heights
    are. *)
Theorem exportSVG_after_regenerations (innerWidth innerHeight : num)
    (this : App) (cs : list Regeneration) :
  Forall (fun v => v < iterations 0 3 (length (position this))) (index this) ->
  length (index this) mod 3 = 0 ->
  exportSVG innerWidth innerHeight (foldl regenerate this cs)
  = Ok (svg_document innerWidth innerHeight
          (join (outlines
                   (projectToSVG innerWidth innerHeight
                      (foldl regenerate this cs))
                   (index this)))).
Proof.
  intros Hidx Hmod.
  destruct (regenerations_frame cs this) as [Hi Hl].
  rewrite <- Hi. apply exportSVG_total; rewrite Hi; [|done].
  by rewrite Hl.
Qed.

(** X14.  From the construction to the file: a terrain created from a
    plane whose index list is made of whole triangles over its vertices
    can be exported at once and after any sequence of regenerations; the
    export returns a document over the index list of the plane. *)
Theorem createTerrain_exportable (innerWidth innerHeight : num)
    (cam : Camera) (noise_object : T) (r : num)
    (geometry : BufferGeometry num) (world : Matrix4)
    (cs : list Regeneration) :
  Forall (fun v => v < iterations 0 3 (length (attributes_position geometry)))
         (geometry_index geometry) ->
  length (geometry_index geometry) mod 3 = 0 ->
  exportSVG innerWidth innerHeight
            (foldl regenerate
                   (createTerrain cam noise_object r geometry world) cs)
  = Ok (svg_document innerWidth innerHeight
          (join (outlines
                   (projectToSVG innerWidth innerHeight
                      (foldl regenerate
                         (createTerrain cam noise_object r geometry world)
                         cs))
                   (geometry_index geometry)))).
Proof.
  intros Hidx Hmod.
  set (this := createTerrain cam noise_object r geometry world).
  assert (index this = geometry_index geometry) as Hindex by done.
  assert (length (position this) = length (attributes_position geometry))
    as Hlength by apply (length_heights this).
  destruct (regenerations_frame cs this) as [Hi Hl].
  rewrite <- Hindex, <- Hi.
  apply exportSVG_total; rewrite Hi, Hindex; [|done].
  by rewrite Hl, Hlength.
Qed.

End ExportAfterRegeneration.

(* ================================================================== *)
(** ** The tables of [makeNoise2D], for any random source *)

Lemma toUint8_lt (v : option nat) : toUint8 v < 256.
Proof.
  destruct v as [n|]; unfold toUint8; [|lia].
  apply Nat.mod_upper_bound. lia.
Qed.

Lemma toUint8_Some (n : nat) : toUint8 (Some n) = n mod 256.
Proof. done. Qed.

(** The second table of the last loop: entry [i] is entry [i] of the first
    table, just written, modulo 12. *)
Lemma fill_tables_permMod12 (p : list nat) :
  (fill_tables p).2
  = (fun i => toUint8 (p !! Nat.land i 255) mod 12) <$> seq 0 512.
Proof.
  unfold fill_tables. rewrite for_indices_1.
  assert (forall todo t,
            Forall (fun i => i < length t.1) todo ->
            (foldl (fill_step p) t todo).2
            = foldl (fun a i => <[i := toUint8 (p !! Nat.land i 255) mod 12]> a)
                    t.2 todo) as Hsnd.
  { induction todo as [|i todo IH]; intros t Htodo; [done|].
    apply Forall_cons in Htodo as [Hi Htodo].
    cbn [foldl]. rewrite IH.
    - unfold fill_step. cbn [snd fst].
      rewrite list_lookup_insert_eq by done.
      rewrite fmap_Some_eq_fmap, toUint8_Some.
      rewrite (Nat.mod_small (_ mod 12) 256); [done|].
      assert (Hm := Nat.mod_upper_bound
                      (toUint8 (p !! Nat.land i 255)) 12). lia.
    - unfold fill_step. cbn [fst]. by rewrite length_insert. }
  rewrite Hsnd.
  - change ((replicate 512 0, replicate 512 0).2) with (replicate 512 0).
    pose proof (foldl_insert_seq
                  (fun i => toUint8 (p !! Nat.land i 255) mod 12)
                  (replicate 512 0)) as Hfill.
    by rewrite length_replicate in Hfill.
  - change ((replicate 512 0, replicate 512 0).1) with (replicate 512 0).
    rewrite length_replicate. apply Forall_forall. intros i Hi.
    apply elem_of_seq in Hi. lia.
Qed.

Section AnySource.
Context {num : Type} `{Number num} `{MathObject num} `{Coercions num}.
Variable random : nat -> num.

(** Whatever the draw is, a step of the shuffle keeps 256 bytes. *)
Lemma shuffle_step_bytes (p : list nat) (i : nat) :
  length p = 256 /\ Forall (fun v => v < 256) p ->
  length (shuffle_step random p i) = 256 /\
  Forall (fun v => v < 256) (shuffle_step random p i).
Proof.
  intros [Hlen Hp]. unfold shuffle_step, write_at.
  assert (Forall (fun v => v < 256)
            (<[i := toUint8 (read_at p
                               (Math_floor
                                  (nmul (of_nat (i + 1))
                                        (random (255 - i)))))]> p))
    as Hp1 by (apply Forall_insert; [done|apply toUint8_lt]).
  destruct (toIndex _) as [k|].
  - rewrite !length_insert. split; [done|].
    apply Forall_insert; [done|apply toUint8_lt].
  - by rewrite length_insert.
Qed.

Lemma shuffle_loop_bytes (todo : list nat) (p : list nat) :
  length p = 256 /\ Forall (fun v => v < 256) p ->
  length (foldl (shuffle_step random) p todo) = 256 /\
  Forall (fun v => v < 256) (foldl (shuffle_step random) p todo).
Proof.
  revert p. induction todo as [|i todo IH]; intros p Hp; [done|].
  cbn [foldl]. by apply IH, shuffle_step_bytes.
Qed.

Lemma identity_table_bytes :
  length identity_table = 256 /\ Forall (fun v => v < 256) identity_table.
Proof.
  rewrite identity_table_seq. split; [apply length_seq|].
  apply Forall_forall. intros v Hv. apply elem_of_seq in Hv. lia.
Qed.

Lemma shuffled_table_bytes :
  length (shuffled_table random) = 256 /\
  Forall (fun v => v < 256) (shuffled_table random).
Proof.
  exact (shuffle_loop_bytes (countdown 255) identity_table
           identity_table_bytes).
Qed.

Lemma makeNoise2D_tables :
  perm (makeNoise2D random) = shuffled_table random ++ shuffled_table random /\
  permMod12 (makeNoise2D random)
  = (fun v => v mod 12) <$> perm (makeNoise2D random).
Proof.
  destruct shuffled_table_bytes as [Hlen Hp]. split.
  - unfold makeNoise2D. cbn [perm]. rewrite fill_tables_perm.
    by apply doubled_table.
  - unfold makeNoise2D. cbn [perm permMod12].
    rewrite fill_tables_perm, fill_tables_permMod12.
    rewrite <- list_fmap_compose. apply list_fmap_ext. intros _ i _.
    unfold compose. reflexivity.
Qed.

(** X8.  Whatever the random source returns (values outside [0, 1),
    [NaN], anything), [makeNoise2D] builds two tables of 512 entries:
    every entry of [perm] is a byte, entry [i] of [permMod12] is entry [i]
    of [perm] modulo 12, and the upper half of [perm] repeats the lower
    half ([perm[i] = perm[i & 255]]). *)
Theorem makeNoise2D_tables_any_source :
  length (perm (makeNoise2D random)) = 512 /\
  length (permMod12 (makeNoise2D random)) = 512 /\
  (forall i : nat,
     i < 512 ->
     exists v : nat,
       perm (makeNoise2D random) !! i = Some v /\ v < 256 /\
       permMod12 (makeNoise2D random) !! i = Some (v mod 12) /\
       perm (makeNoise2D random) !! (i mod 256) = Some v).
Proof.
  destruct makeNoise2D_tables as [Hperm Hmod].
  destruct shuffled_table_bytes as [Hlen Hp].
  assert (length (perm (makeNoise2D random)) = 512) as Hl
    by (rewrite Hperm, length_app; lia).
  split; [done|]. split; [by rewrite Hmod, length_fmap|].
  intros i Hi.
  destruct (lookup_lt_is_Some_2 (perm (makeNoise2D random)) i) as [v Hv];
    [lia|].
  exists v. split; [done|].
  assert (shuffled_table random !! (i mod 256) = Some v) as Hlow.
  { rewrite Hperm in Hv. destruct (decide (i < 256)) as [Hlo|Hhi].
    - rewrite Nat.mod_small by done. by rewrite lookup_app_l in Hv by lia.
    - rewrite lookup_app_r in Hv by lia. rewrite Hlen in Hv.
      replace (i mod 256) with (i - 256); [done|].
      replace i with ((i - 256) + 1 * 256) at 2 by lia.
      rewrite Nat.Div0.mod_add. symmetry. apply Nat.mod_small. lia. }
  split; [by apply (Forall_lookup_1 _ _ _ _ Hp Hlow)|].
  split.
  - rewrite Hmod, list_lookup_fmap, Hv. done.
  - rewrite Hperm. rewrite lookup_app_l; [done|].
    rewrite Hlen. apply Nat.mod_upper_bound. lia.
Qed.

(** X9.  With draws in range (a random source with values in [0, 1)),
    the residues of [permMod12] are not spread evenly: each of [0 .. 3]
    occurs 44 times and each of [4 .. 11] occurs 42 times among its 512
    entries (256 is no multiple of 12), and no other value occurs. *)
Theorem makeNoise2D_permMod12_counts (v : nat) :
  (forall i : nat, 1 <= i <= 255 -> draw_in_range random i) ->
  count_occ Nat.eq_dec (permMod12 (makeNoise2D random)) v
  = if decide (v < 4) then 44 else if decide (v < 12) then 42 else 0.
Proof.
  intros Hdraws.
  destruct makeNoise2D_tables as [Hperm Hmod].
  destruct (shuffled_table_is_table random Hdraws) as [_ Hp].
  rewrite Hmod, Hperm.
  assert ((fun v => v mod 12) <$> (shuffled_table random ++ shuffled_table random)
          ≡ₚ (fun v => v mod 12) <$> (seq 0 256 ++ seq 0 256)) as Hpp
    by (by rewrite Hp).
  rewrite (Permutation_count_occ Nat.eq_dec) in Hpp. rewrite Hpp.
  destruct (decide (v < 12)) as [Hlt|Hge].
  - do 12 (destruct v as [|v]; [vm_compute; reflexivity|]). lia.
  - rewrite decide_False by lia.
    apply count_occ_not_In. intros Hin. apply list_elem_of_In in Hin.
    apply list_elem_of_fmap in Hin as (k & -> & _).
    assert (Hm := Nat.mod_upper_bound k 12). lia.
Qed.

(** X10.  [makeNoise2D] calls [random] 255 times and no more: two random
    sources with the same first 255 draws give the same tables. *)
Theorem makeNoise2D_reads_255_draws (random' : nat -> num) :
  (forall k : nat, k < 255 -> random k = random' k) ->
  makeNoise2D random = makeNoise2D random'.
Proof.
  intros Hsame.
  assert (forall todo p,
            (forall i, i ∈ todo -> 1 <= i <= 255) ->
            foldl (shuffle_step random) p todo
            = foldl (shuffle_step random') p todo) as Hloop.
  { induction todo as [|i todo IH]; intros p Htodo; simpl; [done|].
    assert (shuffle_step random p i = shuffle_step random' p i) as ->.
    { unfold shuffle_step. rewrite Hsame; [done|].
      assert (1 <= i <= 255) by apply Htodo, list_elem_of_here. lia. }
    apply IH. intros j Hj. by apply Htodo, list_elem_of_further. }
  unfold makeNoise2D, shuffled_table.
  rewrite Hloop; [done|]. intros i Hi. by apply elem_of_countdown.
Qed.

End AnySource.

(* ================================================================== *)
(** ** Numbers that are not finite, on binary64 *)

Module NonFinite.
Import SpecFloat FloatOps PrimFloat FloatAxioms.

Lemma SFcompare_refl (x : spec_float) :
  x <> S754_nan -> SFcompare x x = Some Eq.
Proof.
  destruct x as [s|s| |s m e]; intros Hx; try done.
  - by destruct s.
  - cbn [SFcompare]. rewrite Z.compare_refl.
    change (Pos.compare_cont Eq m m) with (Pos.compare m m).
    rewrite Pos.compare_refl. by destruct s.
Qed.

Lemma is_nan_spec (x : float) : is_nan x = true <-> Prim2SF x = S754_nan.
Proof.
  unfold is_nan. rewrite eqb_spec. unfold SFeqb. split.
  - intros Hx. destruct (Prim2SF x) as [s|s| |s m e] eqn:Hsf; [| |done|].
    + by rewrite SFcompare_refl in Hx.
    + by rewrite SFcompare_refl in Hx.
    + by rewrite SFcompare_refl in Hx.
  - by intros ->.
Qed.

Lemma is_infinity_spec (x : float) :
  is_infinity x = true <-> exists s : bool, Prim2SF x = S754_infinity s.
Proof.
  unfold is_infinity. rewrite eqb_spec, abs_spec.
  change (Prim2SF infinity) with (S754_infinity false). split.
  - destruct (Prim2SF x) as [s|s| |s m e]; try done. by exists s.
  - by intros [s ->].
Qed.

(** [x] is [NaN] or an infinity. *)
Lemma is_finite_false (x : float) :
  is_finite x = false <->
  Prim2SF x = S754_nan \/ exists s : bool, Prim2SF x = S754_infinity s.
Proof.
  unfold is_finite. rewrite negb_false_iff, orb_true_iff.
  by rewrite is_nan_spec, is_infinity_spec.
Qed.

Lemma add_non_finite (a b : float) :
  is_finite a = false \/ is_finite b = false -> is_finite (a + b) = false.
Proof.
  rewrite !is_finite_false, add_spec. unfold SF64add.
  intros [[Ha|[s Ha]]|[Hb|[s Hb]]].
  - rewrite Ha. by left.
  - rewrite Ha. destruct (Prim2SF b) as [sb|sb| |sb mb eb]; cbn [SFadd];
      [right; by exists s| |by left|right; by exists s].
    destruct s, sb; eauto.
  - rewrite Hb. left. by destruct (Prim2SF a).
  - rewrite Hb. destruct (Prim2SF a) as [sa|sa| |sa ma ea]; cbn [SFadd];
      [right; by exists s| |by left|right; by exists s].
    destruct sa, s; eauto.
Qed.

(** The product of a number that is not finite and a positive double. *)
Lemma mul_non_finite (a c : float) (m : positive) (e : Z) :
  Prim2SF c = S754_finite false m e ->
  (Prim2SF a = S754_nan -> Prim2SF (a * c) = S754_nan) /\
  (forall s, Prim2SF a = S754_infinity s ->
             Prim2SF (a * c) = S754_infinity s).
Proof.
  intros Hc. rewrite mul_spec, Hc. unfold SF64mul. split.
  - by intros ->.
  - intros s ->. cbn [SFmul]. by destruct s.
Qed.

Lemma mul_is_finite_false (a c : float) (m : positive) (e : Z) :
  Prim2SF c = S754_finite false m e ->
  is_finite a = false -> is_finite (a * c) = false.
Proof.
  intros Hc. rewrite !is_finite_false.
  destruct (mul_non_finite a c m e Hc) as [Hnan Hinf].
  intros [Ha|[s Ha]]; [left; auto|right; exists s; auto].
Qed.

Lemma floor_non_finite (a : float) :
  (Prim2SF a = S754_nan -> Prim2SF (Binary64.floor a) = S754_nan) /\
  (forall s, Prim2SF a = S754_infinity s ->
             Prim2SF (Binary64.floor a) = S754_infinity s).
Proof.
  unfold Binary64.floor. split.
  - intros Ha. by rewrite Ha.
  - intros s Ha. by rewrite Ha.
Qed.

Lemma add_nan_l (a b : float) :
  Prim2SF a = S754_nan -> Prim2SF (a + b) = S754_nan.
Proof. intros Ha. by rewrite add_spec, Ha. Qed.

Lemma sub_nan_l (a b : float) :
  Prim2SF a = S754_nan -> Prim2SF (a - b) = S754_nan.
Proof. intros Ha. by rewrite sub_spec, Ha. Qed.

Lemma sub_nan_r (a b : float) :
  Prim2SF b = S754_nan -> Prim2SF (a - b) = S754_nan.
Proof.
  intros Hb. rewrite sub_spec, Hb. unfold SF64sub. by destruct (Prim2SF a).
Qed.

Lemma mul_nan_l (a b : float) :
  Prim2SF a = S754_nan -> Prim2SF (a * b) = S754_nan.
Proof. intros Ha. by rewrite mul_spec, Ha. Qed.

Lemma add_nan_r (a b : float) :
  Prim2SF b = S754_nan -> Prim2SF (a + b) = S754_nan.
Proof.
  intros Hb. rewrite add_spec, Hb. unfold SF64add. by destruct (Prim2SF a).
Qed.

(** An infinity plus a number that is neither [NaN] nor the opposite
    infinity. *)
Lemma add_infinity (a b : float) (s : bool) :
  Prim2SF a = S754_infinity s ->
  Prim2SF b <> S754_nan -> Prim2SF b <> S754_infinity (negb s) ->
  Prim2SF (a + b) = S754_infinity s /\ Prim2SF (b + a) = S754_infinity s.
Proof.
  intros Ha Hn Ho. rewrite !add_spec, Ha. unfold SF64add.
  destruct (Prim2SF b) as [sb|sb| |sb mb eb]; try done.
  destruct s, sb; done.
Qed.

Lemma add_is_infinity (a b : float) (s : bool) :
  Prim2SF (a + b) = S754_infinity s ->
  (Prim2SF a <> S754_nan /\ Prim2SF a <> S754_infinity (negb s)) /\
  (Prim2SF b <> S754_nan /\ Prim2SF b <> S754_infinity (negb s)).
Proof.
  rewrite add_spec. unfold SF64add.
  destruct (Prim2SF a) as [sa|sa| |sa ma ea],
           (Prim2SF b) as [sb|sb| |sb mb eb];
    cbn [SFadd]; try done;
    try (destruct s, sa; done); try (destruct s, sb; done).
  destruct s, sa, sb; done.
Qed.

Lemma sub_infinities (a b : float) (s : bool) :
  Prim2SF a = S754_infinity s -> Prim2SF b = S754_infinity s ->
  Prim2SF (a - b) = S754_nan.
Proof. intros Ha Hb. rewrite sub_spec, Ha, Hb. by destruct s. Qed.

Section ClosureOnBinary64.
Import (hints) Binary64.
Context `{trig : MathApprox float}.

(** The closure on coordinates whose sum is not finite: the cell corner
    is an infinity or [NaN], the offset from it is [NaN], and so is the
    sample, whatever [Math.sin] and [Math.cos] return. *)
Lemma sample_sum_non_finite (env : Noise2D) (x y : float) :
  is_finite (x + y) = false ->
  Prim2SF (sample env x y) = S754_nan.
Proof.
  intros Hu. unfold sample.
  cbn [nadd nsub nmul ndiv Math_floor Math_sqrt Binary64.float_Number
         Binary64.float_Math].
  set (F2 := (lit 0.5 * (sqrt (lit 3.0) - lit 1.0))%float).
  set (G2 := ((lit 3.0 - sqrt (lit 3.0)) / lit 6.0)%float).
  assert (exists m e, Prim2SF F2 = S754_finite false m e) as (mF & eF & HF2)
    by (eexists; eexists; vm_compute; reflexivity).
  assert (exists m e, Prim2SF G2 = S754_finite false m e) as (mG & eG & HG2)
    by (eexists; eexists; vm_compute; reflexivity).
  destruct (mul_non_finite (x + y) F2 mF eF HF2) as [Hs_nan Hs_inf].
  set (s := ((x + y) * F2)%float) in *.
  set (i := Binary64.floor (x + s)).
  set (j := Binary64.floor (y + s)).
  destruct (mul_non_finite (i + j) G2 mG eG HG2) as [Ht_nan Ht_inf].
  set (t := ((i + j) * G2)%float) in *.
  assert (Prim2SF (i - t) = S754_nan) as HX0.
  { apply is_finite_false in Hu as [Hu|[sg Hu]].
    - apply sub_nan_l. apply floor_non_finite.
      apply add_nan_r. by apply Hs_nan.
    - destruct (add_is_infinity x y sg Hu) as [[Hx1 Hx2] [Hy1 Hy2]].
      assert (Prim2SF i = S754_infinity sg) as Hi.
      { apply floor_non_finite.
        by apply (add_infinity s x sg (Hs_inf sg Hu) Hx1 Hx2). }
      assert (Prim2SF j = S754_infinity sg) as Hj.
      { apply floor_non_finite.
        by apply (add_infinity s y sg (Hs_inf sg Hu) Hy1 Hy2). }
      apply (sub_infinities i t sg Hi). apply Ht_inf.
      apply (add_infinity i j sg Hi).
      + by rewrite Hj.
      + rewrite Hj. by destruct sg. }
  do 2 apply mul_nan_l. apply add_nan_l, mul_nan_l, sub_nan_r. exact HX0.
Qed.

End ClosureOnBinary64.
End NonFinite.

Section NonFiniteHeights.
Import (hints) Binary64.
Import PrimFloat.

(** X11.  On binary64 the closure of [makeNoise2D] answers [NaN] whenever
    the sum of its two arguments is not finite: in particular when one of
    them is [NaN] or an infinity, and also for two finite arguments whose
    sum overflows; whatever [Math.sin] and [Math.cos] return. *)
Theorem sample_not_finite (trig : MathApprox float) (env : Noise2D)
    (x y : float) :
  is_finite x = false \/ is_finite y = false \/
  is_finite (x + y) = false ->
  is_nan (sample env x y) = true.
Proof.
  intros Hxy. apply NonFinite.is_nan_spec, NonFinite.sample_sum_non_finite.
  destruct Hxy as [Hx|[Hy|Hs]]; [| |done];
    apply NonFinite.add_non_finite; auto.
Qed.

(** X12.  On binary64, with the closure of [makeNoise2D] as noise, the
    height is [NaN] as soon as [x], [y] or the seed is [NaN] or an
    infinity: nothing is checked and nothing is thrown. *)
Theorem generateHeight_not_finite (trig : MathApprox float)
    (Th : Three float) (this : TopographicalMap Noise2D float)
    (x y : float) :
  is_finite x = false \/ is_finite y = false \/
  is_finite (seed this) = false ->
  is_nan (generateHeight this x y) = true.
Proof.
  intros Hxy. apply NonFinite.is_nan_spec. unfold generateHeight.
  cbn [nadd nmul noise Noise2D_object Binary64.float_Number].
  do 2 apply NonFinite.add_nan_l. apply NonFinite.add_nan_r.
  apply NonFinite.mul_nan_l, NonFinite.sample_sum_non_finite.
  assert (exists m e, FloatOps.Prim2SF (lit 0.5)
                      = SpecFloat.S754_finite false m e) as (m & e & Hhalf)
    by (eexists; eexists; vm_compute; reflexivity).
  apply NonFinite.add_non_finite.
  destruct Hxy as [Hx|[Hy|Hs]].
  - left. apply NonFinite.add_non_finite. left.
    by apply (NonFinite.mul_is_finite_false x (lit 0.5) m e Hhalf).
  - right. apply NonFinite.add_non_finite. left.
    by apply (NonFinite.mul_is_finite_false y (lit 0.5) m e Hhalf).
  - left. apply NonFinite.add_non_finite. by right.
Qed.

End NonFiniteHeights.

(* ================================================================== *)
(** ** The seed, on binary64 *)

Module SeedRange.
Import SpecFloat FloatOps PrimFloat FloatAxioms IEEE IEEEFacts.
Import Binary64Vocabulary.
Import (hints) Binary64.
Open Scope Z_scope.

Section ScaledSeed.
Variable K : Z.
Hypothesis K_large : 1200 <= K.

(** Rounding a value that is at most [N (1 - 2^-53)], for [N] up to
    1024, gives a double below [N]. *)
Lemma round_below_1024 (s : bool) (M e N : Z) :
  0 < M -> 0 <= e + K -> 1 <= N <= 1024 ->
  2 * (M * 2 ^ (e + K)) <= N * (2 * 2 ^ K - 2 ^ (K - 52)) ->
  magnitude_le K (N * 2 ^ K - 1) (binary_round_aux prec emax s M e loc_Exact).
Proof using K_large.
  intros HM He HN Hle.
  destruct (binary_round_aux_upper s M e K HM He)
    as (m2 & e2 & -> & Hm2 & He2 & Hexact & Hround).
  set (t := fexp prec emax (Zdigits2 M + e)) in *.
  assert (0 < 2 ^ (K - 52)) as Hp52 by (apply pow2_pos; lia).
  assert (0 < 2 ^ K) as HpK by (apply pow2_pos; lia).
  assert (2 ^ K = 2 ^ 52 * 2 ^ (K - 52)) as HK52.
  { rewrite <- pow2_add by lia; f_equal; lia. }
  assert (0 < 2 ^ (e + K)) as Hpe by (apply pow2_pos; lia).
  assert (m2 * 2 ^ (e2 + K) < N * 2 ^ K) as Hlt.
  { destruct (Z_le_gt_dec t e) as [Hte|Hte].
    - specialize (Hexact Hte). nia.
    - destruct (Hround ltac:(lia)) as [Hhalf _].
      assert (2 ^ (t + K) * 2 ^ 52 <= Z.max (M * 2 ^ (e + K)) (2 ^ (K - 1022)))
        as Hunit.
      { unfold t, fexp, emin, emax, prec.
        destruct M as [|m|m]; try lia. cbn [Zdigits2].
        destruct (digits2_pos_bounds m) as [Hlo _].
        assert (0 < Z.pos (digits2_pos m)) by lia.
        destruct (Z.max_spec (Z.pos (digits2_pos m) + e - 53) (3 - 1024 - 53))
          as [[Hmax ->]|[Hmax ->]].
        - rewrite <- pow2_add by lia.
          replace (3 - 1024 - 53 + K + 52) with (K - 1022) by lia.
          apply Z.le_max_r.
        - rewrite <- pow2_add by lia.
          replace (Z.pos (digits2_pos m) + e - 53 + K + 52)
            with (Z.pos (digits2_pos m) - 1 + (e + K)) by lia.
          rewrite pow2_add by lia.
          etransitivity; [|apply Z.le_max_l].
          apply Z.mul_le_mono_nonneg_r; lia. }
      assert (2 ^ (K - 1022) < 2 ^ K) by (apply pow2_lt; lia).
      assert (0 <= 2 ^ (t + K)) by (apply Z.pow_nonneg; lia).
      change (2 ^ 52) with 4503599627370496 in *.
      nia. }
  unfold round_result.
  destruct m2 as [|m|m]; [done| |lia].
  assert (0 <= e2 + K) by lia.
  assert (0 < 2 ^ (e2 + K)) by (apply pow2_pos; lia).
  assert (2 ^ (e2 + K) < 2 ^ (K + 10)) as Hpow.
  { rewrite (pow2_add K 10) by lia. change (2 ^ 10) with 1024. nia. }
  apply pow2_lt_inv in Hpow; [|lia].
  replace (e2 <=? emax - prec) with true
    by (symmetry; apply Z.leb_le; unfold emax, prec; lia).
  cbn [magnitude_le]. lia.
Qed.

(** The product of a double in [0, 1) and 1000. *)
Lemma SFmul_1000 (s : bool) (mr : positive) (er : Z) :
  valid64 (S754_finite s mr er) = true ->
  Z.pos mr * 2 ^ (er + K) < 2 ^ K ->
  magnitude_le K (1000 * 2 ^ K - 1)
    (SFmul prec emax (S754_finite s mr er)
           (S754_finite false 8796093022208000 (-43))).
Proof using K_large.
  intros Vr Hr. cbn [SFmul].
  destruct (valid_finite _ _ _ Vr) as (Her & _).
  assert (Hone := ShuffleDraws.below_one_scaled K K_large _ _ _ Vr Hr).
  apply round_below_1024; [lia|lia|lia|].
  rewrite Pos2Z.inj_mul.
  change (Z.pos 8796093022208000) with (1000 * 2 ^ 43).
  assert (2 ^ 43 * 2 ^ (er + -43 + K) = 2 ^ (er + K)) as Hsplit.
  { rewrite <- pow2_add by lia; f_equal; lia. }
  replace (Z.pos mr * (1000 * 2 ^ 43) * 2 ^ (er + -43 + K))
    with (1000 * (Z.pos mr * (2 ^ 43 * 2 ^ (er + -43 + K)))) by ring.
  rewrite Hsplit.
  replace (2 * (1000 * (Z.pos mr * 2 ^ (er + K))))
    with (1000 * (2 * (Z.pos mr * 2 ^ (er + K)))) by ring.
  apply Z.mul_le_mono_nonneg_l; lia.
Qed.

End ScaledSeed.

(** A draw in [0, 1) times 1000 lies in [0, 1000). *)
Lemma seed_of_draw (r : float) :
  in_half_open_unit r ->
  PrimFloat.leb 0 (r * 1000) = true /\ PrimFloat.ltb (r * 1000) 1000 = true.
Proof.
  intros Hr. rewrite leb_spec, ltb_spec, mul_spec. unfold SF64mul.
  change (Prim2SF 1000) with (S754_finite false 8796093022208000 (-43)).
  change (Prim2SF 0) with (S754_zero false).
  set (K := 1200).
  assert (1200 <= K) as HK by (unfold K; lia). clearbody K.
  assert (Vr := Prim2SF_valid r).
  destruct (ShuffleDraws.half_open_unit_shape K HK r Hr)
    as [[s Hz]|(m & e & Hf & Hlt)].
  - rewrite Hz. cbn [SFmul]. by destruct s.
  - rewrite Hf in *.
    assert (Hx := SFmul_1000 K HK false m e Vr Hlt).
    assert (valid64 (SFmul prec emax (S754_finite false m e)
                       (S754_finite false 8796093022208000 (-43))) = true)
      as Vx.
    { pose proof (Prim2SF_valid (r * 1000)) as V.
      by rewrite mul_spec, Hf in V. }
    assert (forall m' e',
              SFmul prec emax (S754_finite false m e)
                (S754_finite false 8796093022208000 (-43))
              <> S754_finite true m' e') as Hsign.
    { intros m' e'. cbn [SFmul xorb].
      destruct (binary_round_aux_upper false (Z.pos (m * 8796093022208000))
                  (e + -43) K ltac:(lia)
                  ltac:(destruct (valid_finite _ _ _ Vr); lia))
        as (m2 & e2 & -> & _).
      unfold round_result. destruct m2; [done| |done].
      by destruct (e2 <=? emax - prec). }
    destruct (SFmul prec emax (S754_finite false m e)
                (S754_finite false 8796093022208000 (-43)))
      as [sx|sx| |sx mx ex]; try done.
    destruct sx; [by destruct (Hsign mx ex)|].
    split; [done|]. cbn [magnitude_le] in Hx.
    unfold SFltb.
    rewrite (SFcompare_magnitudes K HK false mx 8796093022208000 ex (-43)
               Vx eq_refl).
    assert (Z.pos 8796093022208000 * 2 ^ (-43 + K) = 1000 * 2 ^ K) as Hk.
    { change (Z.pos 8796093022208000) with (1000 * 2 ^ 43).
      rewrite <- Z.mul_assoc, <- pow2_add by lia. do 2 f_equal. lia. }
    rewrite Hk.
    destruct (Z.compare_spec (Z.pos mx * 2 ^ (ex + K)) (1000 * 2 ^ K));
      [lia|done|lia].
Qed.

End SeedRange.

Section SeedOfNewMap.
Import (hints) Binary64.
Import PrimFloat Binary64Vocabulary.
Context {T : Type} `{Three float} `{NoiseObject T float}.

(** X13.  On binary64, when [Math.random()] returns a value in [0, 1),
    the seed [generateNewMap()] and [createTerrain()] set lies in
    [0, 1000): the rounding of the product never reaches 1000. *)
Theorem seed_in_range (r : float) (this : TopographicalMap T float)
    (cam : Camera) (noise_object : T) (geometry : BufferGeometry float)
    (world : Matrix4) :
  in_half_open_unit r ->
  (PrimFloat.leb 0 (seed (generateNewMap r this)) = true /\
   PrimFloat.ltb (seed (generateNewMap r this)) 1000 = true) /\
  (PrimFloat.leb 0 (seed (createTerrain cam noise_object r geometry world))
   = true /\
   PrimFloat.ltb (seed (createTerrain cam noise_object r geometry world))
                 1000 = true).
Proof.
  intros Hr.
  change (seed (generateNewMap r this)) with (r * 1000)%float.
  change (seed (createTerrain cam noise_object r geometry world))
    with (r * 1000)%float.
  split; by apply SeedRange.seed_of_draw.
Qed.

End SeedOfNewMap.

(* ================================================================== *)
(** ** The properties on concrete inputs *)

Section MoreRuns.
Import (hints) Binary64.
Import PrimFloat Binary64Vocabulary Scenes MoreScenes.
Existing Instance Scenes.printer.
Existing Instance Scenes.three.

(** X5 on the quad: the document is the same with four more points. *)
Lemma generateSVG_more_points_witness :
  generateSVG (lit 800) (lit 600) (quad table_a flat_vertices) far_points
  = Ok (svg_document (lit 800 : float) (lit 600)
          "M400,300 L800,300 L400,0 Z ") /\
  generateSVG (lit 800) (lit 600) (quad table_a flat_vertices)
              (far_points ++ broken_points)
  = Ok (svg_document (lit 800 : float) (lit 600)
          "M400,300 L800,300 L400,0 Z ").
Proof.
  assert (generateSVG (lit 800) (lit 600) (quad table_a flat_vertices)
                      far_points
          = Ok (svg_document (lit 800 : float) (lit 600)
                  "M400,300 L800,300 L400,0 Z ")) as Hdoc
    by (vm_compute; reflexivity).
  split; [exact Hdoc|].
  exact (generateSVG_more_points (lit 800) (lit 600)
           (quad table_a flat_vertices) far_points broken_points _ Hdoc).
Defined.

(** X9 on the source [random_a]: the residue 0 occurs 44 times, the
    residue 11 occurs 42 times. *)
Lemma makeNoise2D_permMod12_counts_witness :
  (forall i : nat, 1 <= i <= 255 -> draw_in_range random_a i) /\
  count_occ Nat.eq_dec (permMod12 (makeNoise2D random_a)) 0 = 44 /\
  count_occ Nat.eq_dec (permMod12 (makeNoise2D random_a)) 11 = 42.
Proof.
  assert (forall i : nat, 1 <= i <= 255 -> draw_in_range random_a i) as Hdraws.
  { apply draws_checked. vm_compute. reflexivity. }
  split; [exact Hdraws|]. split.
  - exact (makeNoise2D_permMod12_counts random_a 0 Hdraws).
  - exact (makeNoise2D_permMod12_counts random_a 11 Hdraws).
Defined.

(** X10 on [random_a] and the source that follows it for 255 calls. *)
Lemma makeNoise2D_reads_255_draws_witness :
  (forall k : nat, k < 255 -> random_a k = random_a_then_nan k) /\
  makeNoise2D random_a = makeNoise2D random_a_then_nan.
Proof.
  assert (forall k : nat, k < 255 -> random_a k = random_a_then_nan k)
    as Hsame.
  { intros k Hk. unfold random_a_then_nan.
    by replace (k <? 255) with true by (symmetry; apply Nat.ltb_lt; lia). }
  split; [exact Hsame|].
  exact (makeNoise2D_reads_255_draws random_a random_a_then_nan Hsame).
Defined.

End MoreRuns.

Section MoreRunsOfHeights.
Import (hints) Binary64.
Import PrimFloat Binary64Vocabulary Scenes MoreScenes.
Existing Instance Scenes.printer.
Existing Instance Scenes.three.
Existing Instance Scenes.constant_noise.

(** X7 on the quad with a noise that is 1 everywhere, after an
    [updateTerrain()] and a [generateNewMap()]. *)
Lemma exportSVG_after_regenerations_witness :
  exportSVG (lit 800) (lit 600)
            (foldl regenerate (plateau 1) [Update; NewMap (lit 0.25)])
  = Ok (svg_document (lit 800 : float) (lit 600)
          (join (outlines
                   (projectToSVG (lit 800) (lit 600)
                      (foldl regenerate (plateau 1)
                             [Update; NewMap (lit 0.25)]))
                   [0; 1; 2; 1; 3; 2]))).
Proof.
  apply (exportSVG_after_regenerations (lit 800) (lit 600) (plateau 1)
           [Update; NewMap (lit 0.25)]).
  - repeat (apply List.Forall_cons; [simpl; lia|]). apply List.Forall_nil.
  - reflexivity.
Defined.

(** X14 on the plane of the quad, with that noise. *)
Lemma createTerrain_exportable_witness :
  exportSVG (lit 800) (lit 600)
            (foldl regenerate
               (createTerrain (plain_camera : @Camera float three)
                  (1%float) (lit 0.25) quad_geometry
                  (ThreeJS.identity : @Matrix4 float three))
               [NewMap (lit 0.5)])
  = Ok (svg_document (lit 800 : float) (lit 600)
          (join (outlines
                   (projectToSVG (lit 800) (lit 600)
                      (foldl regenerate
                         (createTerrain (plain_camera : @Camera float three)
                            (1%float) (lit 0.25) quad_geometry
                            (ThreeJS.identity : @Matrix4 float three))
                         [NewMap (lit 0.5)]))
                   [0; 1; 2; 1; 3; 2]))).
Proof.
  apply (createTerrain_exportable (lit 800) (lit 600)
           (plain_camera : @Camera float three) (1%float) (lit 0.25)
           quad_geometry (ThreeJS.identity : @Matrix4 float three)
           [NewMap (lit 0.5)]).
  - repeat (apply List.Forall_cons; [simpl; lia|]). apply List.Forall_nil.
  - reflexivity.
Defined.

End MoreRunsOfHeights.

Section MoreRunsOfNoise.
Import (hints) Binary64.
Import PrimFloat Binary64Vocabulary Scenes MoreScenes.
Existing Instance Scenes.three.
Existing Instance MoreScenes.coarse_trig.

(** X11 at [(Infinity, 0)]. *)
Lemma sample_not_finite_witness :
  is_finite infinity = false /\
  is_nan (sample table_a infinity (lit 0)) = true.
Proof.
  split; [reflexivity|].
  apply (sample_not_finite coarse_trig table_a infinity (lit 0)).
  left. reflexivity.
Defined.

(** X12 on the quad, for [x = NaN]. *)
Lemma generateHeight_not_finite_witness :
  is_finite nan = false /\
  is_nan (generateHeight (quad table_a flat_vertices) nan (lit 0)) = true.
Proof.
  split; [reflexivity|].
  apply (generateHeight_not_finite coarse_trig Scenes.three
           (quad table_a flat_vertices) nan (lit 0)).
  left. reflexivity.
Defined.

(** X13 for the draw 0.5. *)
Lemma seed_in_range_witness :
  in_half_open_unit 0.5 /\
  PrimFloat.ltb (seed (generateNewMap (0.5)%float
                         (quad table_a flat_vertices))) 1000 = true /\
  PrimFloat.ltb (seed (createTerrain (plain_camera : @Camera float three)
                         table_a (0.5)%float quad_geometry
                         (ThreeJS.identity : @Matrix4 float three)))
                1000 = true.
Proof.
  assert (in_half_open_unit 0.5) as Hr by (split; reflexivity).
  split; [exact Hr|].
  destruct (seed_in_range (T := Noise2D) (0.5)%float
              (quad table_a flat_vertices)
              (plain_camera : @Camera float three) table_a quad_geometry
              (ThreeJS.identity : @Matrix4 float three) Hr)
    as [[_ Hnew] [_ Hcreate]].
  split; [exact Hnew|exact Hcreate].
Defined.

End MoreRunsOfNoise.
